(** * mhash: the read path of the extensible hash index

    A shallow embedding of [mhash/mhash.go]: the hash-prefix arithmetic, the
    rendering of bucket keys, and the continuation-based lookup [Hash.Get]
    running on a session (scheduler) and an item accessor. *)

From Stdlib Require Import ZArith Lia Ascii.
From stdpp Require Import base tactics option list numbers strings.

Local Open Scope Z_scope.

(** ** Machine integers

    Go's [uint64] is a [Z] in [[0, 2^64)]; [int] is the 64-bit signed
    integer, whose arithmetic wraps around. A shift by a negative count
    panics; a shift by a count of 64 or more gives 0 on a [uint64]. *)

Definition MaxUint64 : Z := 2 ^ 64 - 1.

Definition is_uint64 (x : Z) : Prop := 0 <= x < 2 ^ 64.

Definition int_wrap (z : Z) : Z := (z + 2 ^ 63) mod 2 ^ 64 - 2 ^ 63.

(** [x << s] on [uint64]; [None] is the run-time panic for [s < 0]. *)
Definition shl_u64 (x s : Z) : option Z :=
  if s <? 0 then None else Some (Z.land (Z.shiftl x s) MaxUint64).

(** [x >> s] on [uint64]. *)
Definition shr_u64 (x s : Z) : option Z :=
  if s <? 0 then None else Some (Z.shiftr x s).

(** ** Constants of the package *)

Definition maxDeepLevels : Z := 5.

Definition bitSetShift : Z := 3.
Definition bitSetMask : Z := Z.shiftl 1 bitSetShift - 1.
Definition bitSetBytes : Z := 256 / Z.shiftl 1 bitSetShift.

(** ** Hash-prefix arithmetic *)

(** [hash & (math.MaxUint64 << (64 - 8*hashLen))] *)
Definition computeHashAtLevel (hash hashLen : Z) : option Z :=
  mask ← shl_u64 MaxUint64 (int_wrap (64 - int_wrap (8 * hashLen)));
  Some (Z.land hash mask).

(** [offset := (hash >> (64 - 8 - currentHashLen*8)) & 0xff; int(offset)] *)
Definition computeBitOffsetAtNextLevel (hash currentHashLen : Z) : option Z :=
  shifted ← shr_u64 hash (int_wrap (int_wrap (64 - 8) - int_wrap (currentHashLen * 8)));
  Some (int_wrap (Z.land shifted 255)).

(** ** Big-endian bytes and hexadecimal text (Go's [encoding/binary] and
    [encoding/hex]) *)

(** [byte(v)]: the conversion keeps the low eight bits. *)
Definition to_byte (v : Z) : Z := Z.land v 255.

(** [binary.BigEndian.PutUint64(data[:], v)] on [var data [8]byte]. *)
Definition PutUint64 (v : Z) : list Z :=
  [ to_byte (Z.shiftr v 56); to_byte (Z.shiftr v 48);
    to_byte (Z.shiftr v 40); to_byte (Z.shiftr v 32);
    to_byte (Z.shiftr v 24); to_byte (Z.shiftr v 16);
    to_byte (Z.shiftr v 8); to_byte v ].

Definition hextable : list ascii :=
  String.list_ascii_of_string "0123456789abcdef".

(** [hextable[i]] *)
Definition hexchar (i : Z) : ascii :=
  nth (Z.to_nat i) hextable "0"%char.

(** [hex.EncodeToString]: two characters per byte, [hextable[v>>4]] then
    [hextable[v&0x0f]]. *)
Fixpoint EncodeToString (src : list Z) : string :=
  match src with
  | [] => EmptyString
  | v :: rest =>
      String (hexchar (Z.shiftr v 4))
        (String (hexchar (Z.land v 15)) (EncodeToString rest))
  end.

(** [data[:n]] on an array of eight bytes; out of range panics. *)
Definition slice_to (data : list Z) (n : Z) : option (list Z) :=
  if (0 <=? n) && (n <=? Z.of_nat (length data))
  then Some (take (Z.to_nat n) data) else None.

(** ** The same quantities in the words of the specification *)

(** "[hash] with only its top [n] bytes retained". *)
Definition keep_top_bytes (hash n : Z) : Z :=
  2 ^ (64 - 8 * n) * (hash / 2 ^ (64 - 8 * n)).

(** "The byte at offset [i] of the big-endian encoding of [hash]". *)
Definition big_endian_byte (hash i : Z) : Z :=
  (hash / 256 ^ (7 - i)) mod 256.

Definition big_endian_bytes (hash : Z) : list Z :=
  map (big_endian_byte hash) [0; 1; 2; 3; 4; 5; 6; 7].

(** Hexadecimal text, digit by digit: ['0'..'9'] then ['a'..'f']. *)
Definition hex_digit (n : Z) : ascii :=
  ascii_of_nat (Z.to_nat (if n <? 10 then 48 + n else 87 + n)).

Definition hex_of_byte (b : Z) : string :=
  String (hex_digit (b / 16)) (String (hex_digit (b mod 16)) EmptyString).

Fixpoint hex_of_bytes (l : list Z) : string :=
  match l with
  | [] => EmptyString
  | b :: rest => hex_of_byte b +:+ hex_of_bytes rest
  end.

(** ** Data model *)

(** Go's [error] values: the package's own [ErrHashTooDeep], and whatever
    the item accessor reports. *)
Inductive error : Type :=
| ErrHashTooDeep
| ErrOther (msg : string).

Record Null (T : Type) : Type := mkNull { Valid : bool; Data : T }.
Arguments mkNull {T} _ _.
Arguments Valid {T} _.
Arguments Data {T} _.

(** [type BitSet [bitSetBytes]byte] *)
Definition BitSet : Type := list Z.

Record Bucket (T : Type) : Type := mkBucket { Items : list T; Bitset : BitSet }.
Arguments mkBucket {T} _ _.
Arguments Items {T} _.
Arguments Bitset {T} _.

Record BucketKey (R : Type) : Type :=
  mkBucketKey { RootKey : R; Hash : Z; HashLen : Z }.
Arguments mkBucketKey {R} _ _ _.
Arguments RootKey {R} _.
Arguments Hash {R} _.
Arguments HashLen {R} _.

(** Bucket keys can be told apart when root keys can. *)
#[global] Instance BucketKey_eq_dec {R} `{!EqDecision R} :
  EqDecision (BucketKey R).
Proof. solve_decision. Defined.

Record getResult (T : Type) : Type :=
  mkGetResult { resp : Null T; err : option error }.
Arguments mkGetResult {T} _ _.
Arguments resp {T} _.
Arguments err {T} _.

(** What a run of the program can come to: a value and the new state, a
    run-time panic, or, for the scheduler loop, no fuel left. *)
Inductive outcome (S A : Type) : Type :=
| Ok (a : A) (s : S)
| Panic
| OutOfFuel.
Arguments Ok {S A} _ _.
Arguments Panic {S A}.
Arguments OutOfFuel {S A}.

(** Observable steps of a run, in the order they happen. The first three
    carry the frame of the [Get] call that makes them. *)
Inductive Event (R : Type) : Type :=
| CallHashAtLevel (id : nat) (hashLen : Z)
| CallBitOffset (id : nat) (currentHashLen : Z)
| ItemGet (id : nat) (k : BucketKey R)
| RoundTrip (batch : list (BucketKey R)).
Arguments CallHashAtLevel {R} _ _.
Arguments CallBitOffset {R} _ _.
Arguments ItemGet {R} _ _.
Arguments RoundTrip {R} _.

Definition event_frame {R} (ev : Event R) : option nat :=
  match ev with
  | CallHashAtLevel id _ | CallBitOffset id _ | ItemGet id _ => Some id
  | RoundTrip _ => None
  end.

(** The events of one [Get] call. *)
Definition events_of {R} (id : nat) (tr : list (Event R)) : list (Event R) :=
  filter (fun ev => event_frame ev = Some id) tr.

(** The bucket keys handed to the item accessor, in order. *)
Fixpoint fetches {R} (tr : list (Event R)) : list (BucketKey R) :=
  match tr with
  | [] => []
  | ItemGet _ k :: rest => k :: fetches rest
  | _ :: rest => fetches rest
  end.

(** The batches sent to the backend, in order. *)
Fixpoint round_trips {R} (tr : list (Event R)) : list (list (BucketKey R)) :=
  match tr with
  | [] => []
  | RoundTrip batch :: rest => batch :: round_trips rest
  | _ :: rest => round_trips rest
  end.

(** [BucketKey.String] *)
Definition BucketKey_String {R : Type} (R_String : R -> string)
    (k : BucketKey R) : option string :=
  data ← slice_to (PutUint64 (Hash k)) (HashLen k);
  Some (R_String (RootKey k) +:+ ":" +:+ EncodeToString data).

(** The rendering in the words of the specification. *)
Definition render_spec {R : Type} (R_String : R -> string)
    (k : BucketKey R) : string :=
  R_String (RootKey k) +:+ ":"
    +:+ hex_of_bytes (take (Z.to_nat (HashLen k)) (big_endian_bytes (Hash k))).

(** Closed forms of the two arithmetic functions where they do not panic
    (lemmas [computeHashAtLevel_prefix] and
    [computeBitOffsetAtNextLevel_offset] below), and the bucket key
    [doGetFn] builds at a level. [level_mask s] is what the shift in
    [computeHashAtLevel] leaves for a shift count [s]. *)
Definition level_mask (s : Z) : Z := Z.land (Z.shiftl MaxUint64 s) MaxUint64.

Definition prefix_of (h d : Z) : Z := Z.land h (level_mask (64 - 8 * d)).

Definition offset_of (h d : Z) : Z := Z.land (Z.shiftr h (56 - 8 * d)) 255.

Definition level_key {R} (rk : R) (h d : Z) : BucketKey R :=
  mkBucketKey rk (prefix_of h d) d.

(** A bucket key as the data model wants it: a depth below the bound, and
    every byte of [Hash] after the first [HashLen] zero. *)
Definition key_ok {R} (k : BucketKey R) : Prop :=
  0 <= HashLen k <= 4
  /\ forall i : nat, HashLen k <= Z.of_nat i < 8 -> PutUint64 (Hash k) !! i = Some 0.

Definition event_ok {R} (ev : Event R) : Prop :=
  match ev with
  | CallHashAtLevel _ n => 0 <= n <= 4 /\ 0 <= 64 - 8 * n
  | CallBitOffset _ n => 0 <= n <= 4 /\ 0 <= 64 - 8 - n * 8
  | ItemGet _ k => key_ok k
  | RoundTrip batch => Forall key_ok batch
  end.

(** ** Interfaces *)

(** [type Key interface { comparable; Hash() uint64 }]. [Key_eq] is the
    [==] of the key type, as Go has it on a [comparable] type: it need not
    hold of a value and itself (a NaN), it may hold of two different values
    (the zeros of a float), and it panics on two interface values of one
    dynamic type that cannot be compared; [None] is that panic. *)
Class Key (K : Type) : Type := {
  Key_eq : K -> K -> option bool;
  Key_Hash : K -> Z
}.

(** A key type whose [==] cannot panic, what Go calls strictly
    comparable. Nothing else is asked of [==]. *)
Class StrictKey (K : Type) `{!Key K} : Prop :=
  Key_eq_total : forall a b : K, is_Some (Key_eq a b).

(** What a [Hash[T, R, K]] value works with: its [getKey] field, the zero
    value of [T], [BitSet.GetBit] (of this package, of another file), and
    what a fetch of a bucket key comes back with, that is the cache and the
    filler behind the item accessor, which the lookup only reads. *)
Class HashEnv (T R K : Type) : Type := {
  getKey : T -> K;
  zeroT : T;
  GetBit : BitSet -> Z -> bool;
  backend : BucketKey R -> Bucket T * option error
}.

(** ** The lookup engine *)

Section Engine.

Context {T R K : Type} `{!Key K} `{!HashEnv T R K}.

(** The variables one call of [Get] closes over. *)
Record GetFrame : Type := mkGetFrame {
  rootKey : R;
  key : K;
  keyHash : Z;
  rootBucketFn : option (BucketKey R);
  hashLen : Z;
  result : getResult T
}.

Definition set_rootBucketFn (fn : option (BucketKey R)) (f : GetFrame) : GetFrame :=
  mkGetFrame (rootKey f) (key f) (keyHash f) fn (hashLen f) (result f).

Definition set_hashLen (n : Z) (f : GetFrame) : GetFrame :=
  mkGetFrame (rootKey f) (key f) (keyHash f) (rootBucketFn f) n (result f).

Definition set_err (e : option error) (f : GetFrame) : GetFrame :=
  mkGetFrame (rootKey f) (key f) (keyHash f) (rootBucketFn f) (hashLen f)
    (mkGetResult (resp (result f)) e).

Definition set_resp (r : Null T) (f : GetFrame) : GetFrame :=
  mkGetFrame (rootKey f) (key f) (keyHash f) (rootBucketFn f) (hashLen f)
    (mkGetResult r (err (result f))).

(** The session shared by the calls: the frames of the [Get] calls made so
    far, the continuations queued by [AddNextCall] (each is the
    [nextCallFn] of a frame), the fetches the accessor has queued and not
    sent yet, and the log. *)
Record World : Type := mkWorld {
  frames : list GetFrame;
  nextCalls : list nat;
  pending : list (BucketKey R);
  trace : list (Event R)
}.

Definition new_world : World := mkWorld [] [] [] [].

Definition M (A : Type) : Type := World -> outcome World A.

Definition ret {A} (a : A) : M A := fun w => Ok a w.

Definition bind {A B} (m : M A) (k : A -> M B) : M B :=
  fun w => match m w with
           | Ok a w' => k a w'
           | Panic => Panic
           | OutOfFuel => OutOfFuel
           end.

Notation "x <- m ;; k" := (bind m (fun x => k))
  (at level 100, m at level 99, k at level 200, only parsing).
Notation "m ;; k" := (bind m (fun _ => k))
  (at level 100, k at level 200, right associativity, only parsing).

(** A value that has to be there: [None] is a run-time panic. *)
Definition must {A} (o : option A) : M A :=
  fun w => match o with Some a => Ok a w | None => Panic end.

Definition emit (ev : Event R) : M unit :=
  fun w => Ok tt (mkWorld (frames w) (nextCalls w) (pending w) (trace w ++ [ev])).

Definition get_frame (id : nat) : M GetFrame :=
  fun w => must (frames w !! id) w.

Definition modify_frame (id : nat) (g : GetFrame -> GetFrame) : M unit :=
  fun w => match frames w !! id with
           | Some f => Ok tt (mkWorld (<[id := g f]> (frames w)) (nextCalls w)
                                (pending w) (trace w))
           | None => Panic
           end.

Definition alloc_frame (f : GetFrame) : M nat :=
  fun w => Ok (length (frames w))
             (mkWorld (frames w ++ [f]) (nextCalls w) (pending w) (trace w)).

(** Modelled from the spec: the session's [AddNextCall], which the spec
    gives as "enqueue(continuation)". *)
Definition AddNextCall (id : nat) : M unit :=
  fun w => Ok tt (mkWorld (frames w) (nextCalls w ++ [id]) (pending w) (trace w)).

(** Modelled from the spec: the item accessor's [Get], "fetch(context,
    BucketKey) -> deferred (Bucket, error)". The request is queued; the
    deferred callable is named by its bucket key. *)
Definition item_Get (id : nat) (k : BucketKey R) : M (BucketKey R) :=
  fun w => Ok k (mkWorld (frames w) (nextCalls w) (pending w ++ [k])
                   (trace w ++ [ItemGet id k])).

(** Modelled from the spec: calling the deferred callable. The scheduler
    runs a continuation only after the round that sent its fetch, so the
    bucket (or the error) is there. *)
Definition call_deferred (k : BucketKey R) : M (Bucket T * option error) :=
  fun w => Ok (backend k) w.

(** Modelled from the spec: "each round executes all currently queued
    fetches together", one backend round trip for the batch. *)
Definition send_pending : M unit :=
  fun w => match pending w with
           | [] => Ok tt w
           | batch => Ok tt (mkWorld (frames w) (nextCalls w) []
                               (trace w ++ [RoundTrip batch]))
           end.

(** The loop over [bucket.Items] with its early return. [itemKey == key]
    is the [==] of the key type; a comparison that panics ends the scan
    with that panic, [None]. [Some None] is a scan that finds nothing. *)
Fixpoint scanItems (k : K) (items : list T) : option (option T) :=
  match items with
  | [] => Some None
  | bucketItem :: rest =>
      match Key_eq (getKey bucketItem) k with
      | None => None
      | Some true => Some (Some bucketItem)
      | Some false => scanItems k rest
      end
  end.

Definition doGetFn (id : nat) : M unit :=
  f <- get_frame id ;;
  emit (CallHashAtLevel id (hashLen f)) ;;
  h <- must (computeHashAtLevel (keyHash f) (hashLen f)) ;;
  fn <- item_Get id (mkBucketKey (rootKey f) h (hashLen f)) ;;
  modify_frame id (set_rootBucketFn (Some fn)) ;;
  AddNextCall id.

Definition nextCallFn (id : nat) : M unit :=
  f <- get_frame id ;;
  fn <- must (rootBucketFn f) ;;
  r <- call_deferred fn ;;
  match snd r with
  | Some e => modify_frame id (set_err (Some e))
  | None =>
      emit (CallBitOffset id (hashLen f)) ;;
      bitOffset <- must (computeBitOffsetAtNextLevel (keyHash f) (hashLen f)) ;;
      if GetBit (Bitset (fst r)) bitOffset then
        modify_frame id (fun f0 => set_hashLen (int_wrap (hashLen f0 + 1)) f0) ;;
        f' <- get_frame id ;;
        if maxDeepLevels <=? hashLen f'
        then modify_frame id (set_err (Some ErrHashTooDeep))
        else doGetFn id
      else
        found <- must (scanItems (key f) (Items (fst r))) ;;
        match found with
        | Some bucketItem => modify_frame id (set_resp (mkNull true bucketItem))
        | None => ret tt
        end
  end.

(** Modelled from the spec: the session's [Execute], "drainAll() - drains
    rounds until no continuation is pending". A round sends the queued
    fetches, then takes the queued continuations and runs them in order;
    they may queue the next round. *)
Fixpoint run_calls (calls : list nat) : M unit :=
  match calls with
  | [] => ret tt
  | id :: rest => nextCallFn id ;; run_calls rest
  end.

Fixpoint Execute (fuel : nat) : M unit :=
  fun w =>
    match nextCalls w with
    | [] => Ok tt w
    | calls =>
        match fuel with
        | O => OutOfFuel
        | S n =>
            (send_pending ;; run_calls calls ;; Execute n)
              (mkWorld (frames w) [] (pending w) (trace w))
        end
    end.

(** [Hash.Get], up to the closure it returns; the closure is named by the
    frame it closes over. *)
Definition Get (rk : R) (k : K) : M nat :=
  id <- alloc_frame (mkGetFrame rk k (Key_Hash k) None 0
                       (mkGetResult (mkNull false zeroT) None)) ;;
  doGetFn id ;;
  ret id.

(** The closure [Get] returns: drain the session, then hand out the
    frame's result. *)
Definition Get_wait (fuel : nat) (id : nat) : M (Null T * option error) :=
  Execute fuel ;;
  f <- get_frame id ;;
  ret (resp (result f), err (result f)).

(** The worlds a program can bring a fresh session to by calling [Get] and
    by resolving. *)
Inductive reachable : World -> Prop :=
| reach_new : reachable new_world
| reach_Get w rk k id w' :
    reachable w -> Get rk k w = Ok id w' -> reachable w'
| reach_Execute w fuel w' :
    reachable w -> Execute fuel w = Ok tt w' -> reachable w'.

(** *** The engine one frame at a time

    What one run of [nextCallFn] does to its own frame, whether it queues
    itself again, and what it logs; then the same over a whole descent. *)

Definition branch_taken (rk : R) (h d : Z) : bool :=
  match snd (backend (level_key rk h d)) with
  | Some _ => false
  | None => GetBit (Bitset (fst (backend (level_key rk h d)))) (offset_of h d)
  end.

Fixpoint descends_to (rk : R) (h : Z) (d : nat) : bool :=
  match d with
  | O => true
  | S d' => descends_to rk h d' && branch_taken rk h (Z.of_nat d')
  end.

Definition requeues (f : GetFrame) : bool :=
  branch_taken (rootKey f) (keyHash f) (hashLen f)
  && (hashLen f + 1 <? maxDeepLevels).

Definition frame_after (f : GetFrame) : GetFrame :=
  let r := backend (level_key (rootKey f) (keyHash f) (hashLen f)) in
  match snd r with
  | Some e => set_err (Some e) f
  | None =>
      if GetBit (Bitset (fst r)) (offset_of (keyHash f) (hashLen f)) then
        if maxDeepLevels <=? hashLen f + 1
        then set_err (Some ErrHashTooDeep) (set_hashLen (hashLen f + 1) f)
        else set_rootBucketFn
               (Some (level_key (rootKey f) (keyHash f) (hashLen f + 1)))
               (set_hashLen (hashLen f + 1) f)
      else
        match scanItems (key f) (Items (fst r)) with
        | Some (Some bucketItem) => set_resp (mkNull true bucketItem) f
        | _ => f
        end
  end.

(** Whether the step of a frame panics: it does when a comparison of its
    scan does. *)
Definition step_panics (f : GetFrame) : bool :=
  let r := backend (level_key (rootKey f) (keyHash f) (hashLen f)) in
  match snd r with
  | Some _ => false
  | None =>
      if GetBit (Bitset (fst r)) (offset_of (keyHash f) (hashLen f)) then false
      else match scanItems (key f) (Items (fst r)) with
           | None => true
           | Some _ => false
           end
  end.

Definition step_events (id : nat) (f : GetFrame) : list (Event R) :=
  match snd (backend (level_key (rootKey f) (keyHash f) (hashLen f))) with
  | Some _ => []
  | None =>
      CallBitOffset id (hashLen f)
      :: (if requeues f
          then [CallHashAtLevel id (hashLen f + 1);
                ItemGet id (level_key (rootKey f) (keyHash f) (hashLen f + 1))]
          else [])
  end.

Fixpoint run_frame (n : nat) (f : GetFrame) : GetFrame :=
  match n with
  | O => f
  | S m => if requeues f then run_frame m (frame_after f) else frame_after f
  end.

Fixpoint run_events (n : nat) (id : nat) (f : GetFrame) : list (Event R) :=
  match n with
  | O => []
  | S m =>
      step_events id f
      ++ (if requeues f then run_events m id (frame_after f) else [])
  end.

(** Whether a descent of [n] steps at most panics on its way. *)
Fixpoint run_panics (n : nat) (f : GetFrame) : bool :=
  match n with
  | O => false
  | S m => step_panics f || (requeues f && run_panics m (frame_after f))
  end.

(** A frame whose continuation is queued: below the depth bound, holding
    the deferred bucket of its level. *)
Definition armed (f : GetFrame) : Prop :=
  0 <= hashLen f <= 4
  /\ rootBucketFn f = Some (level_key (rootKey f) (keyHash f) (hashLen f)).

(** Whether the continuation of frame [id] queues itself again. *)
Definition requeued (w : World) (id : nat) : bool :=
  match frames w !! id with
  | Some f => requeues f
  | None => false
  end.

(** Whether the continuation of frame [id] panics in its next step, and
    whether it does within [n] steps. *)
Definition panics_at (w : World) (id : nat) : bool :=
  match frames w !! id with
  | Some f => step_panics f
  | None => false
  end.

Definition descent_panics (n : nat) (w : World) (id : nat) : bool :=
  match frames w !! id with
  | Some f => run_panics n f
  | None => false
  end.

Definition queued_ok (w : World) (id : nat) : Prop :=
  exists f, frames w !! id = Some f /\ armed f.

(** The depth a frame can be at: the bound itself only once the descent
    has stopped on it. *)
Definition frame_ok (f : GetFrame) : Prop :=
  0 <= hashLen f <= maxDeepLevels
  /\ (hashLen f = maxDeepLevels -> err (result f) = Some ErrHashTooDeep).

(** The invariant of the session. *)
Record wf (w : World) : Prop := mkWf {
  wf_nodup : NoDup (nextCalls w);
  wf_queue : Forall (queued_ok w) (nextCalls w);
  wf_frames : Forall frame_ok (frames w);
  wf_pending : Forall key_ok (pending w);
  wf_pending_queue : length (pending w) = length (nextCalls w);
  wf_trace : Forall event_ok (trace w);
  wf_ids : forall ev id,
      ev ∈ trace w -> event_frame ev = Some id -> (id < length (frames w))%nat
}.

(** The frame [Get] starts from, and the frame at level [d] of its
    descent. *)
Definition frame_at (rk : R) (k : K) (d : Z) : GetFrame :=
  mkGetFrame rk k (Key_Hash k) (Some (level_key rk (Key_Hash k) d)) d
    (mkGetResult (mkNull false zeroT) None).

(** The fetches of a descent down to level [d], in order. *)
Definition fetches_to (rk : R) (h : Z) (d : nat) : list (BucketKey R) :=
  map (fun i => level_key rk h (Z.of_nat i)) (seq 0 (S d)).

(** "The first item whose projected key equals the query key", in storage
    order, by the [==] of the key type: the comparison holds of the item's
    key and the query key, and fails, without a panic, for every item
    before it. The zero [Null] when the comparison fails for every item. *)
Definition first_match (k : K) (items : list T) (r : Null T) : Prop :=
  (exists before bucketItem after,
      items = before ++ bucketItem :: after
      /\ Key_eq (getKey bucketItem) k = Some true
      /\ Forall (fun x => Key_eq (getKey x) k = Some false) before
      /\ r = mkNull true bucketItem)
  \/ (Forall (fun x => Key_eq (getKey x) k = Some false) items
      /\ r = mkNull false zeroT).


End Engine.

(** ** [New]: the filler of buckets *)

(** [Bucket[T]{}]: no items and a bit set of zero bytes. *)
Definition zero_Bucket {T} : Bucket T :=
  mkBucket [] (repeat 0 (Z.to_nat bitSetBytes)).

(** The [bucketFiller] closure of [New]. The application's [filler] gets
    the root key and the hash of the bucket key; what it defers is taken
    at once here, the bytes with the error. [bucketUnmarshaler] is
    [BucketUnmarshalerFromItem(unmarshaler)], of another file. *)
Definition bucketFiller {T R}
    (filler : R -> Z -> list Z * option error)
    (bucketUnmarshaler : list Z -> Bucket T * option error)
    (key : BucketKey R) : Bucket T * option error :=
  let fn := filler (RootKey key) (Hash key) in
  match snd fn with
  | Some e => (zero_Bucket, Some e)
  | None => bucketUnmarshaler (fst fn)
  end.

(** ** A small index to run the engine on *)

(** Modelled from the spec: [BitSet.GetBit], "returns whether position
    [offset] (0-255) is set"; the byte and the bit in it are found with
    the [bitSetShift] and [bitSetMask] of the source. *)
Definition demo_GetBit (b : BitSet) (index : Z) : bool :=
  Z.testbit (nth (Z.to_nat (Z.shiftr index bitSetShift)) b 0)
    (Z.land index bitSetMask).

Definition no_bits : BitSet := repeat 0 (Z.to_nat bitSetBytes).

Definition all_bits : BitSet := repeat 255 (Z.to_nat bitSetBytes).

(** Items are a name and a number; the name is the key. *)
Definition demo_item : Type := string * Z.

Definition demo_hash (name : string) : Z :=
  if decide (name = "alice") then 0x0102030405060708
  else if decide (name = "bob") then 0x01ff000000000000
  else 0.

(** [==] on strings. *)
#[global] Instance demo_Key : Key string := {|
  Key_eq := fun a b => Some (bool_decide (a = b));
  Key_Hash := demo_hash
|}.

(** Four indexes: ["shallow"] keeps everything in its root bucket,
    ["split"] has pushed every branch of the root one level down,
    ["deep"] has every bit set in every bucket, and ["broken"] fails below
    its root. *)
Definition demo_backend (bk : BucketKey string)
    : Bucket demo_item * option error :=
  if decide (RootKey bk = "shallow") then
    (mkBucket [("bob", 1); ("alice", 2); ("alice", 3)] no_bits, None)
  else if decide (RootKey bk = "split") then
    if HashLen bk =? 0 then (mkBucket [] all_bits, None)
    else (mkBucket [("alice", 5)] no_bits, None)
  else if decide (RootKey bk = "deep") then (mkBucket [] all_bits, None)
  else if decide (RootKey bk = "broken") then
    if HashLen bk =? 0 then (mkBucket [] all_bits, None)
    else (mkBucket [] no_bits, Some (ErrOther "timeout"))
  else (mkBucket [] no_bits, None).

#[global] Instance demo_env : HashEnv demo_item string string := {|
  getKey := fst;
  zeroT := ("", 0);
  GetBit := demo_GetBit;
  backend := demo_backend
|}.

(** The session after a lookup in the ["deep"] index has been resolved. *)
Definition demo_deep_world : World :=
  match Get "deep" "alice" new_world with
  | Ok id w =>
      match Execute 5 w with
      | Ok _ w' => w'
      | _ => new_world
      end
  | _ => new_world
  end.

(** The session with a lookup in the ["deep"] index queued. *)
Definition demo_queued_world : World :=
  match Get "deep" "alice" new_world with
  | Ok id w => w
  | _ => new_world
  end.

(** A second index, with numbers for keys; the hash of a key is the key
    itself, cut to 64 bits. Its root has pushed every branch one level
    down, and the two items of the level below collide on five bytes. *)
#[global] Instance num_Key : Key Z := {|
  Key_eq := fun a b => Some (a =? b);
  Key_Hash := fun k => Z.land k MaxUint64
|}.

Definition num_backend (bk : BucketKey string)
    : Bucket (Z * string) * option error :=
  if HashLen bk =? 0 then (mkBucket [] all_bits, None)
  else (mkBucket [(0x0102030405060708, "a"); (0x0102030405ffffff, "b")]
          no_bits, None).

#[global] Instance num_env : HashEnv (Z * string) string Z := {|
  getKey := fst;
  zeroT := (0, "");
  GetBit := demo_GetBit;
  backend := num_backend
|}.

(** A third index, whose key type is an interface: a key holds a number,
    a NaN, or a value of a slice type. Two keys of different dynamic types
    are not equal, a NaN is not equal to itself, and comparing two values
    of the slice type panics. Every key hashes to 0 and the root bucket
    holds everything. *)
Inductive any_key : Type :=
| KNum (n : Z)
| KNaN
| KSlice (l : list Z).

Definition any_key_eq (a b : any_key) : option bool :=
  match a, b with
  | KNum x, KNum y => Some (x =? y)
  | KSlice _, KSlice _ => None
  | _, _ => Some false
  end.

#[global] Instance any_Key : Key any_key := {|
  Key_eq := any_key_eq;
  Key_Hash := fun _ => 0
|}.

Definition any_items : list (any_key * string) :=
  [(KNaN, "nan"); (KNum 7, "seven"); (KSlice [1], "slice"); (KNum 8, "eight")].

#[global] Instance any_env : HashEnv (any_key * string) string any_key := {|
  getKey := fst;
  zeroT := (KNum 0, "");
  GetBit := demo_GetBit;
  backend := fun _ => (mkBucket any_items no_bits, None)
|}.

(** The session with the lookup of a slice key queued. *)
Definition any_queued_world : World :=
  match Get "any" (KSlice [2]) new_world with
  | Ok id w => w
  | _ => new_world
  end.

(** A filler that always fails, and an unmarshaler of empty buckets. *)
Definition demo_filler (rk : string) (hash : Z) : list Z * option error :=
  ([], Some (ErrOther "timeout")).

Definition demo_unmarshaler (data : list Z) : Bucket demo_item * option error :=
  (mkBucket [] no_bits, None).

(** * Proofs *)

(** ** Machine arithmetic *)

Lemma int_wrap_small z : - 2 ^ 63 <= z < 2 ^ 63 -> int_wrap z = z.
Proof.
  intros Hz. unfold int_wrap. rewrite Z.mod_small; lia.
Qed.

Lemma MaxUint64_ones : MaxUint64 = Z.ones 64.
Proof. reflexivity. Qed.

Lemma testbit_uint64_high x i : is_uint64 x -> 64 <= i -> Z.testbit x i = false.
Proof.
  intros [Hlo Hhi] Hi.
  destruct (Z.eq_dec x 0) as [->|Hne]; [apply Z.bits_0|].
  apply Z.bits_above_log2; [lia|].
  apply Z.log2_lt_pow2; [lia|].
  eapply Z.lt_le_trans; [exact Hhi|].
  apply Z.pow_le_mono_r; lia.
Qed.

Lemma testbit_level_mask s i :
  0 <= s -> 0 <= i ->
  Z.testbit (level_mask s) i = (s <=? i) && (i <? 64).
Proof.
  intros Hs Hi. unfold level_mask. rewrite MaxUint64_ones.
  rewrite Z.land_spec, Z.shiftl_spec by lia.
  rewrite (Z.testbit_ones_nonneg 64 i) by lia.
  destruct (Z.ltb_spec i 64), (Z.leb_spec s i); simpl; try reflexivity.
  - rewrite Z.testbit_ones_nonneg by lia.
    destruct (Z.ltb_spec (i - s) 64); [reflexivity|lia].
  - rewrite Z.testbit_neg_r by lia. reflexivity.
  - apply andb_false_r.
  - apply andb_false_r.
Qed.

Lemma land_level_mask hash s :
  is_uint64 hash -> 0 <= s ->
  Z.land hash (level_mask s) = 2 ^ s * (hash / 2 ^ s).
Proof.
  intros Hh Hs. apply Z.bits_inj'. intros i Hi.
  rewrite Z.land_spec, testbit_level_mask by lia.
  rewrite (Z.mul_comm (2 ^ s)), Z.mul_pow2_bits by lia.
  destruct (Z.leb_spec s i) as [Hsi|Hsi]; simpl.
  - rewrite Z.div_pow2_bits by lia.
    replace (i - s + s) with i by lia.
    destruct (Z.ltb_spec i 64); [apply andb_true_r|].
    rewrite (testbit_uint64_high hash i) by (auto; lia). reflexivity.
  - rewrite (Z.testbit_neg_r _ (i - s)) by lia. apply andb_false_r.
Qed.

Lemma computeHashAtLevel_eq hash hashLen :
  0 <= hashLen <= 8 ->
  computeHashAtLevel hash hashLen
  = Some (Z.land hash (level_mask (64 - 8 * hashLen))).
Proof.
  intros Hl. unfold computeHashAtLevel, shl_u64.
  rewrite (int_wrap_small (8 * hashLen)) by lia.
  rewrite int_wrap_small by lia.
  destruct (Z.ltb_spec (64 - 8 * hashLen) 0); [lia|]. reflexivity.
Qed.

Lemma land_255_bound x : 0 <= Z.land x 255 <= 255.
Proof.
  replace (Z.land x 255) with (x mod 2 ^ 8)
    by (symmetry; apply (Z.land_ones x 8); lia).
  pose proof (Z.mod_pos_bound x (2 ^ 8) ltac:(lia)). lia.
Qed.

(** Past the eighth byte the shift counts are negative and both functions
    panic. *)
Example computeHashAtLevel_panics hash : computeHashAtLevel hash 9 = None.
Proof. reflexivity. Qed.

Example computeBitOffsetAtNextLevel_panics hash :
  computeBitOffsetAtNextLevel hash 8 = None.
Proof. reflexivity. Qed.

Lemma computeBitOffsetAtNextLevel_eq hash n :
  0 <= n <= 7 ->
  computeBitOffsetAtNextLevel hash n
  = Some (Z.land (Z.shiftr hash (56 - 8 * n)) 255).
Proof.
  intros Hn. unfold computeBitOffsetAtNextLevel, shr_u64.
  rewrite (int_wrap_small (64 - 8)) by lia.
  rewrite (int_wrap_small (n * 8)) by lia.
  rewrite (int_wrap_small (64 - 8 - n * 8)) by lia.
  destruct (Z.ltb_spec (64 - 8 - n * 8) 0); [lia|].
  cbn [mbind option_bind].
  pose proof (land_255_bound (Z.shiftr hash (64 - 8 - n * 8))).
  rewrite int_wrap_small by lia.
  do 3 f_equal. lia.
Qed.

(** C4. For a 64-bit [hash] and a depth in [[0, maxDeepLevels)],
    [computeHashAtLevel hash depth] is [hash] with only its top [depth]
    bytes retained: the bits below the top [8 * depth] are cleared, the
    others kept. At depth 0 it is 0. *)
Theorem computeHashAtLevel_top_bytes hash depth :
  is_uint64 hash -> 0 <= depth < maxDeepLevels ->
  computeHashAtLevel hash depth = Some (keep_top_bytes hash depth)
  /\ (forall i, 0 <= i ->
        Z.testbit (keep_top_bytes hash depth) i
        = Z.testbit hash i && (64 - 8 * depth <=? i))
  /\ computeHashAtLevel hash 0 = Some 0.
Proof.
  intros Hh Hd. unfold maxDeepLevels in Hd.
  assert (Heq : Z.land hash (level_mask (64 - 8 * depth)) = keep_top_bytes hash depth)
    by (apply land_level_mask; [done|lia]).
  split; [|split].
  - rewrite computeHashAtLevel_eq by lia. by rewrite Heq.
  - intros i Hi. rewrite <- Heq, Z.land_spec, testbit_level_mask by lia.
    destruct (Z.ltb_spec i 64); [by rewrite andb_true_r|].
    rewrite (testbit_uint64_high hash i) by (auto; lia). reflexivity.
  - rewrite computeHashAtLevel_eq by lia.
    f_equal. apply Z.bits_inj'. intros i Hi.
    rewrite Z.land_spec, testbit_level_mask, Z.bits_0 by lia.
    simpl. destruct (Z.leb_spec 64 i), (Z.ltb_spec i 64); simpl; try lia; apply andb_false_r.
Qed.

Lemma shiftr_land_255 hash s :
  0 <= s -> Z.land (Z.shiftr hash s) 255 = (hash / 2 ^ s) mod 2 ^ 8.
Proof.
  intros Hs. rewrite Z.shiftr_div_pow2 by lia.
  apply (Z.land_ones _ 8). lia.
Qed.

(** C5. For a 64-bit [hash] and a depth in [[0, maxDeepLevels)],
    [computeBitOffsetAtNextLevel hash depth] is in [[0, 255]] and is the
    byte at offset [depth] of the big-endian encoding of [hash]. *)
Theorem computeBitOffsetAtNextLevel_big_endian hash depth :
  is_uint64 hash -> 0 <= depth < maxDeepLevels ->
  exists b,
    computeBitOffsetAtNextLevel hash depth = Some b
    /\ 0 <= b <= 255
    /\ PutUint64 hash !! Z.to_nat depth = Some b
    /\ b = big_endian_byte hash depth.
Proof.
  intros Hh Hd. unfold maxDeepLevels in Hd.
  exists (Z.land (Z.shiftr hash (56 - 8 * depth)) 255).
  split; [apply computeBitOffsetAtNextLevel_eq; lia|].
  split; [apply land_255_bound|].
  assert (Hcases : depth = 0 \/ depth = 1 \/ depth = 2 \/ depth = 3 \/ depth = 4) by lia.
  split.
  - destruct Hcases as [->|[->|[->|[->| ->]]]]; reflexivity.
  - rewrite shiftr_land_255 by lia. unfold big_endian_byte.
    change 256 with (2 ^ 8). rewrite <- Z.pow_mul_r by lia.
    do 3 f_equal. lia.
Qed.

Lemma prefix_step hash s :
  8 <= s ->
  2 ^ (s - 8) * (hash / 2 ^ (s - 8))
  = 2 ^ s * (hash / 2 ^ s) + ((hash / 2 ^ (s - 8)) mod 2 ^ 8) * 2 ^ (s - 8).
Proof.
  intros Hs.
  assert (Hp : 2 ^ s = 2 ^ (s - 8) * 2 ^ 8)
    by (rewrite <- Z.pow_add_r by lia; f_equal; lia).
  assert (Hpos : 0 < 2 ^ (s - 8)) by (apply Z.pow_pos_nonneg; lia).
  rewrite Hp at 2.
  rewrite Hp, <- Z.div_div by lia.
  set (q := hash / 2 ^ (s - 8)).
  pose proof (Z.div_mod q (2 ^ 8) ltac:(lia)) as Hq.
  rewrite Hq at 1. ring.
Qed.

(** C6. For a 64-bit [hash] and a depth in [[0, maxDeepLevels - 1)], the
    byte tested against the bitset at that depth is the byte the child's
    prefix adds: the prefix at [depth + 1] is the prefix at [depth] plus
    the next-byte offset shifted left by [64 - 8 * (depth + 1)]. *)
Theorem child_prefix_extends_parent hash depth :
  is_uint64 hash -> 0 <= depth < maxDeepLevels - 1 ->
  exists parent child offset,
    computeHashAtLevel hash depth = Some parent
    /\ computeHashAtLevel hash (depth + 1) = Some child
    /\ computeBitOffsetAtNextLevel hash depth = Some offset
    /\ child = parent + Z.shiftl offset (64 - 8 * (depth + 1)).
Proof.
  intros Hh Hd. unfold maxDeepLevels in Hd.
  eexists _, _, _.
  split; [apply computeHashAtLevel_eq; lia|].
  split; [apply computeHashAtLevel_eq; lia|].
  split; [apply computeBitOffsetAtNextLevel_eq; lia|].
  rewrite !land_level_mask by (auto; lia).
  rewrite Z.shiftl_mul_pow2, shiftr_land_255 by lia.
  replace (64 - 8 * (depth + 1)) with (64 - 8 * depth - 8) by lia.
  replace (56 - 8 * depth) with (64 - 8 * depth - 8) by lia.
  apply prefix_step. lia.
Qed.

Lemma hexchar_hex_digit n : 0 <= n < 16 -> hexchar n = hex_digit n.
Proof.
  intros Hn. rewrite <- (Z2Nat.id n) by lia.
  assert (Hm : (Z.to_nat n < 16)%nat) by lia.
  generalize dependent (Z.to_nat n). intros m Hm.
  do 16 (destruct m as [|m]; [reflexivity|]). lia.
Qed.

Lemma EncodeToString_hex l :
  Forall (fun b => 0 <= b < 256) l -> EncodeToString l = hex_of_bytes l.
Proof.
  induction 1 as [|b l Hb _ IH]; [reflexivity|].
  cbn [EncodeToString hex_of_bytes].
  change (hex_of_byte b +:+ hex_of_bytes l)
    with (String (hex_digit (b / 16)) (String (hex_digit (b mod 16)) (hex_of_bytes l))).
  rewrite IH. f_equal; [|f_equal].
  - rewrite Z.shiftr_div_pow2 by lia. change (2 ^ 4) with 16.
    apply hexchar_hex_digit.
    split; [apply Z.div_pos; lia|apply Z.div_lt_upper_bound; lia].
  - replace (Z.land b 15) with (b mod 2 ^ 4)
      by (symmetry; apply (Z.land_ones b 4); lia).
    change (2 ^ 4) with 16. apply hexchar_hex_digit.
    apply Z.mod_pos_bound. lia.
Qed.

Lemma to_byte_big_endian v i :
  0 <= i <= 7 -> to_byte (Z.shiftr v (56 - 8 * i)) = big_endian_byte v i.
Proof.
  intros Hi. unfold to_byte, big_endian_byte.
  rewrite shiftr_land_255 by lia.
  change 256 with (2 ^ 8). rewrite <- Z.pow_mul_r by lia.
  do 3 f_equal. lia.
Qed.

Lemma PutUint64_big_endian v : PutUint64 v = big_endian_bytes v.
Proof.
  unfold PutUint64, big_endian_bytes. cbn [map].
  rewrite <- !to_byte_big_endian by lia.
  change (56 - 8 * 7) with 0. rewrite Z.shiftr_0_r. reflexivity.
Qed.

Lemma big_endian_bytes_range v :
  Forall (fun b => 0 <= b < 256) (big_endian_bytes v).
Proof.
  unfold big_endian_bytes. apply Forall_map, Forall_forall.
  intros i _. unfold big_endian_byte. apply Z.mod_pos_bound. lia.
Qed.

Lemma string_length_app (a b : string) :
  String.length (a +:+ b) = (String.length a + String.length b)%nat.
Proof. induction a as [|c a IH]; simpl; [reflexivity|]. by f_equal. Qed.

Lemma EncodeToString_length l :
  String.length (EncodeToString l) = (2 * length l)%nat.
Proof. induction l as [|b l IH]; cbn [EncodeToString String.length length]; lia. Qed.

(** ** Rendering of bucket keys *)

Lemma slice_to_PutUint64 v n :
  0 <= n <= 8 ->
  slice_to (PutUint64 v) n = Some (take (Z.to_nat n) (big_endian_bytes v)).
Proof.
  intros Hn. unfold slice_to. rewrite <- PutUint64_big_endian.
  change (Z.of_nat (length (PutUint64 v))) with 8.
  destruct (Z.leb_spec 0 n), (Z.leb_spec n 8); try lia. reflexivity.
Qed.

Lemma BucketKey_String_eq {R} (R_String : R -> string) (k : BucketKey R) :
  0 <= HashLen k <= 8 ->
  BucketKey_String R_String k
  = Some (R_String (RootKey k) +:+ ":"
          +:+ EncodeToString (take (Z.to_nat (HashLen k)) (big_endian_bytes (Hash k)))).
Proof.
  intros Hn. unfold BucketKey_String. by rewrite slice_to_PutUint64.
Qed.

(** C7. For a bucket key with [HashLen] in [[0, maxDeepLevels)],
    [BucketKey.String] is the root key's string, a colon, and the
    hexadecimal encoding of the first [HashLen] bytes of the big-endian
    encoding of [Hash]; at [HashLen = 0] it is the root key's string and a
    colon. *)
Theorem BucketKey_String_render {R} (R_String : R -> string) (k : BucketKey R) :
  0 <= HashLen k < maxDeepLevels ->
  BucketKey_String R_String k = Some (render_spec R_String k)
  /\ (HashLen k = 0 ->
      BucketKey_String R_String k = Some (R_String (RootKey k) +:+ ":")).
Proof.
  intros Hn. unfold maxDeepLevels in Hn.
  assert (Heq : BucketKey_String R_String k = Some (render_spec R_String k)).
  { rewrite BucketKey_String_eq by lia. unfold render_spec.
    rewrite EncodeToString_hex; [reflexivity|].
    apply Forall_take, big_endian_bytes_range. }
  split; [exact Heq|].
  intros H0. rewrite Heq. unfold render_spec. rewrite H0. reflexivity.
Qed.

Lemma BucketKey_String_length {R} (R_String : R -> string) (k : BucketKey R) s :
  0 <= HashLen k <= 8 ->
  BucketKey_String R_String k = Some s ->
  String.length s
  = (String.length (R_String (RootKey k)) + 1 + 2 * Z.to_nat (HashLen k))%nat.
Proof.
  intros Hn. rewrite BucketKey_String_eq by lia. intros [= <-].
  rewrite !string_length_app, EncodeToString_length, length_take.
  change (length (big_endian_bytes (Hash k))) with 8%nat.
  change (String.length ":") with 1%nat. lia.
Qed.

(** C8. Two bucket keys of one root key whose [HashLen] differ, both in
    [[0, maxDeepLevels)], render to different strings. *)
Theorem BucketKey_String_depth_injective {R} (R_String : R -> string)
    (k1 k2 : BucketKey R) :
  RootKey k1 = RootKey k2 ->
  0 <= HashLen k1 < maxDeepLevels ->
  0 <= HashLen k2 < maxDeepLevels ->
  HashLen k1 <> HashLen k2 ->
  exists s1 s2,
    BucketKey_String R_String k1 = Some s1
    /\ BucketKey_String R_String k2 = Some s2
    /\ s1 <> s2.
Proof.
  intros Hroot H1 H2 Hne. unfold maxDeepLevels in *.
  eexists _, _. split; [apply BucketKey_String_eq; lia|].
  split; [apply BucketKey_String_eq; lia|].
  intros Heq. apply (f_equal String.length) in Heq.
  pose proof (BucketKey_String_length R_String k1 _ ltac:(lia)
                (BucketKey_String_eq R_String k1 ltac:(lia))) as L1.
  pose proof (BucketKey_String_length R_String k2 _ ltac:(lia)
                (BucketKey_String_eq R_String k2 ltac:(lia))) as L2.
  rewrite L1, L2, Hroot in Heq. lia.
Qed.

(** ** Bucket keys of a descent *)

Lemma PutUint64_lookup v (i : nat) :
  (i < 8)%nat ->
  PutUint64 v !! i = Some (to_byte (Z.shiftr v (56 - 8 * Z.of_nat i))).
Proof.
  intros Hi. do 8 (destruct i as [|i]; [reflexivity|]). lia.
Qed.

Lemma prefix_of_low_byte h d a :
  0 <= d -> 0 <= a -> a + 8 <= 64 - 8 * d ->
  to_byte (Z.shiftr (prefix_of h d) a) = 0.
Proof.
  intros Hd Ha Hle. unfold to_byte, prefix_of.
  apply Z.bits_inj'. intros j Hj.
  rewrite Z.land_spec, Z.shiftr_spec, Z.land_spec, Z.bits_0 by lia.
  rewrite testbit_level_mask by lia.
  change 255 with (Z.ones 8). rewrite Z.testbit_ones_nonneg by lia.
  destruct (Z.ltb_spec j 8); [|apply andb_false_r].
  destruct (Z.leb_spec (64 - 8 * d) (j + a)); [lia|].
  simpl. by rewrite andb_false_r.
Qed.

Lemma level_key_ok {R} (rk : R) h d : 0 <= d <= 4 -> key_ok (level_key rk h d).
Proof.
  intros Hd. split; [exact Hd|]. cbn [level_key Hash HashLen].
  intros i Hi. rewrite PutUint64_lookup by lia.
  f_equal. apply prefix_of_low_byte; lia.
Qed.

Lemma computeHashAtLevel_prefix h d :
  0 <= d <= 8 -> computeHashAtLevel h d = Some (prefix_of h d).
Proof. apply computeHashAtLevel_eq. Qed.

Lemma computeBitOffsetAtNextLevel_offset h d :
  0 <= d <= 7 -> computeBitOffsetAtNextLevel h d = Some (offset_of h d).
Proof. apply computeBitOffsetAtNextLevel_eq. Qed.

(** ** The engine *)

Section EngineProofs.

Context {T R K : Type} `{!Key K} `{!HashEnv T R K}.

Implicit Types (w : @World T R K) (f : @GetFrame T R K) (id : nat).

(** *** One continuation *)

Lemma doGetFn_spec id f w :
  frames w !! id = Some f ->
  0 <= hashLen f <= 8 ->
  doGetFn id w
  = Ok tt
      (mkWorld
         (<[id := set_rootBucketFn
                    (Some (level_key (rootKey f) (keyHash f) (hashLen f))) f]>
            (frames w))
         (nextCalls w ++ [id])
         (pending w ++ [level_key (rootKey f) (keyHash f) (hashLen f)])
         (trace w ++ [CallHashAtLevel id (hashLen f);
                      ItemGet id (level_key (rootKey f) (keyHash f) (hashLen f))])).
Proof.
  intros Hf Hd. unfold doGetFn, bind, get_frame, emit, item_Get, modify_frame,
    AddNextCall, must.
  rewrite Hf. cbn. rewrite computeHashAtLevel_prefix by done. cbn.
  rewrite Hf. cbn. by rewrite <- app_assoc.
Qed.

(** One run of a continuation: it panics when a comparison of its scan
    does, and else leaves the frame as [frame_after] has it. *)
Lemma nextCallFn_spec id f w :
  frames w !! id = Some f ->
  armed f ->
  nextCallFn id w
  = if step_panics f then Panic
    else Ok tt
      (mkWorld
         (<[id := frame_after f]> (frames w))
         (nextCalls w ++ (if requeues f then [id] else []))
         (pending w ++
          (if requeues f
           then [level_key (rootKey f) (keyHash f) (hashLen f + 1)] else []))
         (trace w ++ step_events id f)).
Proof.
  intros Hf [Hd Hfn].
  assert (Hlt : (id < length (frames w))%nat) by (by eapply lookup_lt_Some).
  unfold nextCallFn, bind at 1 2 3, get_frame, must, call_deferred.
  rewrite Hf, Hfn.
  unfold frame_after, step_events, requeues, branch_taken, step_panics.
  set (bk := level_key (rootKey f) (keyHash f) (hashLen f)).
  destruct (backend bk) as [bucket [e|]]; cbn [fst snd].
  - unfold modify_frame. rewrite Hf. by rewrite !app_nil_r.
  - unfold bind at 1 2, emit, must. cbn [frames nextCalls pending trace].
    rewrite computeBitOffsetAtNextLevel_offset by lia.
    destruct (GetBit (Bitset bucket) (offset_of (keyHash f) (hashLen f))).
    + unfold bind at 1 2, modify_frame, get_frame, must.
      cbn [frames nextCalls pending trace]. rewrite Hf.
      cbn [frames nextCalls pending trace].
      rewrite list_lookup_insert_eq by done.
      cbn [set_hashLen hashLen].
      rewrite (int_wrap_small (hashLen f + 1)) by lia.
      unfold maxDeepLevels.
      destruct (Z.leb_spec 5 (hashLen f + 1)) as [Hdeep|Hdeep].
      * destruct (Z.ltb_spec (hashLen f + 1) 5) as [?|_]; [lia|].
        cbn [frames nextCalls pending trace andb].
        rewrite list_lookup_insert_eq by done.
        rewrite list_insert_insert_eq, !app_nil_r. reflexivity.
      * destruct (Z.ltb_spec (hashLen f + 1) 5) as [_|?]; [|lia].
        cbn [andb].
        erewrite doGetFn_spec;
          [|cbn [frames]; by apply list_lookup_insert_eq
           |cbn [set_hashLen hashLen]; lia].
        cbn [frames nextCalls pending trace set_hashLen hashLen rootKey keyHash].
        rewrite list_insert_insert_eq, <- !app_assoc. reflexivity.
    + cbn [andb]. unfold bind at 1.
      destruct (scanItems (key f) (Items bucket)) as [[bucketItem|]|].
      * unfold modify_frame. cbn [frames nextCalls pending trace].
        rewrite Hf. by rewrite !app_nil_r.
      * unfold ret. rewrite list_insert_id by done.
        destruct w; cbn. by rewrite !app_nil_r.
      * reflexivity.
Qed.

(** *** One frame *)

Lemma frame_after_requeued f :
  requeues f = true ->
  frame_after f
  = set_rootBucketFn
      (Some (level_key (rootKey f) (keyHash f) (hashLen f + 1)))
      (set_hashLen (hashLen f + 1) f).
Proof.
  unfold requeues, branch_taken, frame_after.
  intros [Hb Hlt%Z.ltb_lt]%andb_true_iff.
  destruct (snd (backend _)); [done|]. rewrite Hb.
  destruct (Z.leb_spec maxDeepLevels (hashLen f + 1)); [lia|done].
Qed.

Lemma frame_after_armed f : armed f -> requeues f = true -> armed (frame_after f).
Proof.
  intros [Hd _] Hq. rewrite frame_after_requeued by done.
  pose proof Hq as [_ Hlt%Z.ltb_lt]%andb_true_iff. unfold maxDeepLevels in Hlt.
  split; cbn; [lia|done].
Qed.

Lemma frame_after_ok f : armed f -> frame_ok (frame_after f).
Proof.
  intros [Hd _]. unfold frame_after, frame_ok, maxDeepLevels.
  destruct (snd (backend _)); [cbn; lia|].
  destruct (GetBit _ _).
  - destruct (Z.leb_spec 5 (hashLen f + 1)); cbn; [split; [lia|done]|lia].
  - destruct (scanItems _ _) as [[x|]|]; cbn; lia.
Qed.

Lemma step_events_ok id f : armed f -> Forall event_ok (step_events id f).
Proof.
  intros [Hd _]. unfold step_events.
  destruct (snd (backend _)); [constructor|].
  constructor; [cbn; lia|].
  destruct (requeues f) eqn:Hq; [|constructor].
  pose proof Hq as [_ Hlt%Z.ltb_lt]%andb_true_iff. unfold maxDeepLevels in Hlt.
  constructor; [cbn; lia|].
  constructor; [|constructor].
  apply (level_key_ok (rootKey f)); lia.
Qed.

Lemma events_of_app id (a b : list (Event R)) :
  events_of id (a ++ b) = events_of id a ++ events_of id b.
Proof. apply filter_app. Qed.

Lemma events_of_step id id0 f :
  events_of id0 (step_events id f)
  = if decide (id0 = id) then step_events id f else [].
Proof.
  unfold events_of, step_events.
  destruct (snd (backend _)); [by case_decide|].
  destruct (requeues f); rewrite ?filter_cons, ?filter_nil; cbn [event_frame];
    repeat case_decide; simplify_eq; done.
Qed.

Lemma round_trips_app (a b : list (Event R)) :
  round_trips (a ++ b) = round_trips a ++ round_trips b.
Proof.
  induction a as [|[]]; cbn; [done|done|done|done|by f_equal].
Qed.

Lemma fetches_app (a b : list (Event R)) :
  fetches (a ++ b) = fetches a ++ fetches b.
Proof.
  induction a as [|[]]; cbn; [done|done|done|by f_equal|done].
Qed.

Lemma round_trips_step id f : round_trips (step_events id f) = [].
Proof.
  unfold step_events. destruct (snd (backend _)); [done|].
  by destruct (requeues f).
Qed.

(** *** Panics *)

Lemma existsb_true {A} (g : A -> bool) (l : list A) :
  existsb g l = true <-> exists x, x ∈ l /\ g x = true.
Proof.
  induction l as [|y l IH]; cbn [existsb].
  - split; [done|]. intros (x & Hin & _). by apply elem_of_nil in Hin.
  - rewrite orb_true_iff, IH. split.
    + intros [Hy|(x & Hin & Hx)]; [exists y; split; [by left|done]|].
      exists x. split; [by right|done].
    + intros (x & [->|Hin]%elem_of_cons & Hx); [by left|]. right. by exists x.
Qed.

Lemma existsb_false {A} (g : A -> bool) (l : list A) :
  existsb g l = false <-> forall x, x ∈ l -> g x = false.
Proof.
  split.
  - intros Hl x Hin. destruct (g x) eqn:Hx; [|done].
    rewrite <- Hl. symmetry. apply existsb_true. by exists x.
  - intros Hl. destruct (existsb g l) eqn:Hb; [|done].
    apply existsb_true in Hb as (x & Hin & Hx). rewrite Hl in Hx; done.
Qed.

Lemma existsb_ext_elem {A} (g h : A -> bool) (l : list A) :
  (forall x, x ∈ l -> g x = h x) -> existsb g l = existsb h l.
Proof.
  intros Hgh. apply Bool.eq_true_iff_eq. rewrite !existsb_true.
  split; intros (x & Hin & Hx); exists x; (split; [done|]);
    [by rewrite <- Hgh|by rewrite Hgh].
Qed.

(** A panic of the scan comes from a comparison that panics. *)
Lemma scanItems_None k items :
  scanItems k items = None ->
  exists x, x ∈ items /\ Key_eq (getKey x) k = None.
Proof.
  induction items as [|y items IH]; [done|]. cbn [scanItems].
  destruct (Key_eq (getKey y) k) as [[|]|] eqn:Hy; [done| |].
  - intros (x & Hin & Hx)%IH. exists x. split; [by right|done].
  - intros _. exists y. split; [by left|done].
Qed.

Lemma step_panics_scan f :
  step_panics f = true -> exists k items, scanItems k items = None.
Proof.
  unfold step_panics. destruct (snd (backend _)); [done|].
  destruct (GetBit _ _); [done|].
  destruct (scanItems _ _) eqn:Hscan; [done|]. intros _. eauto.
Qed.

Lemma run_panics_scan n : forall f,
  run_panics n f = true -> exists k items, scanItems k items = None.
Proof.
  induction n as [|n IH]; intros f; [done|]. cbn [run_panics].
  intros [Hs|[_ Hr]%andb_true_iff]%orb_true_iff.
  - by eapply step_panics_scan.
  - by eapply IH.
Qed.

(** *** One round *)

Lemma filter_ext_elem {A} (P Q : A -> Prop)
    `{!forall x, Decision (P x)} `{!forall x, Decision (Q x)} (l : list A) :
  (forall x, x ∈ l -> (P x <-> Q x)) -> filter P l = filter Q l.
Proof.
  induction l as [|x l IH]; intros HPQ; [done|].
  rewrite !filter_cons.
  rewrite IH by (intros y Hy; apply HPQ; by right).
  pose proof (HPQ x ltac:(by left)).
  repeat case_decide; tauto.
Qed.

(** The continuations of a round, run in order: the round panics when one
    of them does, and else every frame of the round has taken its step. *)
Lemma run_calls_spec calls : forall w,
  NoDup calls ->
  Forall (queued_ok w) calls ->
  if existsb (panics_at w) calls then run_calls calls w = Panic
  else
  exists w' evs ks,
    run_calls calls w = Ok tt w'
    /\ (forall id,
          frames w' !! id
          = (fun f => if decide (id ∈ calls) then frame_after f else f)
              <$> frames w !! id)
    /\ nextCalls w' = nextCalls w ++ filter (fun id => requeued w id) calls
    /\ pending w' = pending w ++ ks
    /\ trace w' = trace w ++ evs
    /\ length ks = length (filter (fun id => requeued w id) calls)
    /\ Forall key_ok ks
    /\ Forall event_ok evs
    /\ round_trips evs = []
    /\ (forall id,
          events_of id evs
          = if decide (id ∈ calls)
            then default [] (step_events id <$> frames w !! id)
            else [])
    /\ Forall (fun bk => exists id f,
                 id ∈ calls /\ frames w !! id = Some f
                 /\ HashLen bk = hashLen f + 1) ks.
Proof.
  induction calls as [|id rest IH]; intros w Hnd Hq.
  - cbn [existsb]. exists w, [], []. rewrite !app_nil_r.
    repeat split; try done.
    intros id. by destruct (frames w !! id).
  - apply NoDup_cons in Hnd as [Hnotin Hnd].
    apply Forall_cons in Hq as [(f & Hf & Harmed) Hq].
    pose proof (nextCallFn_spec id f w Hf Harmed) as Hstep.
    cbn [existsb]. unfold panics_at at 1. rewrite Hf.
    destruct (step_panics f); cbn [orb].
    { cbn [run_calls]. unfold bind. by rewrite Hstep. }
    set (w1 := mkWorld _ _ _ _) in Hstep.
    assert (Hother : forall id', id' <> id -> frames w1 !! id' = frames w !! id').
    { intros id' Hne. cbn. by apply list_lookup_insert_ne. }
    assert (Hrq : requeued w id = requeues f)
      by (unfold requeued; by rewrite Hf).
    assert (Hfilter : filter (fun id0 => requeued w1 id0) rest
                      = filter (fun id0 => requeued w id0) rest).
    { apply filter_ext_elem. intros id' Hin. unfold requeued.
      rewrite Hother; [done|]. by intros ->. }
    assert (Hpanics : existsb (panics_at w1) rest = existsb (panics_at w) rest).
    { apply existsb_ext_elem. intros id' Hin. unfold panics_at.
      rewrite Hother; [done|]. by intros ->. }
    assert (Hq1 : Forall (queued_ok w1) rest).
    { apply Forall_forall. intros id' Hin.
      rewrite Forall_forall in Hq. destruct (Hq id' Hin) as (f' & Hf' & Ha').
      exists f'. split; [|done]. rewrite Hother; [done|]. by intros ->. }
    specialize (IH w1 Hnd Hq1). rewrite Hpanics in IH.
    destruct (existsb (panics_at w) rest).
    { cbn [run_calls]. unfold bind. by rewrite Hstep. }
    destruct IH
      as (w' & evs & ks & Hrun & Hfr & Hnc & Hp & Htr & Hlen & Hks & Hevs & Hrt
          & Hev & Hdepth).
    exists w', (step_events id f ++ evs),
      ((if requeues f
        then [level_key (rootKey f) (keyHash f) (hashLen f + 1)] else []) ++ ks).
    split; [cbn [run_calls]; unfold bind; by rewrite Hstep|].
    split.
    { intros id0. rewrite Hfr. destruct (decide (id0 = id)) as [->|Hne].
      - cbn [frames w1]. rewrite list_lookup_insert_eq by (by eapply lookup_lt_Some).
        rewrite Hf. cbn.
        rewrite decide_False by done. rewrite decide_True by (by left). done.
      - rewrite Hother by done. destruct (frames w !! id0); [|done]. cbn.
        f_equal. destruct (decide (id0 ∈ rest)) as [Hin|Hnin].
        + by rewrite decide_True by (by right).
        + by rewrite decide_False by (by apply not_elem_of_cons). }
    split.
    { rewrite Hnc. cbn [nextCalls w1]. rewrite <- app_assoc. f_equal.
      rewrite filter_cons, Hrq, Hfilter.
      destruct (requeues f); by case_decide. }
    split; [rewrite Hp; cbn [pending w1]; by rewrite <- app_assoc|].
    split; [rewrite Htr; cbn [trace w1]; by rewrite <- app_assoc|].
    split.
    { rewrite length_app, Hlen, Hfilter, filter_cons, Hrq.
      destruct (requeues f); by case_decide. }
    split.
    { apply Forall_app. split; [|done].
      destruct (requeues f) eqn:Hgo; [|constructor].
      constructor; [|constructor].
      pose proof Hgo as [_ Hlt%Z.ltb_lt]%andb_true_iff. unfold maxDeepLevels in Hlt.
      destruct Harmed as [Hd _]. apply (level_key_ok (rootKey f)). lia. }
    split; [apply Forall_app; split; [by apply step_events_ok|done]|].
    split; [by rewrite round_trips_app, round_trips_step, Hrt|].
    split.
    { intros id0. rewrite events_of_app, events_of_step, Hev.
      destruct (decide (id0 = id)) as [->|Hne].
      + rewrite decide_False by done. rewrite decide_True by (by left).
        rewrite Hf. cbn. by rewrite app_nil_r.
      + rewrite Hother by done. cbn [app].
        destruct (decide (id0 ∈ rest)) as [Hin|Hnin].
        * by rewrite decide_True by (by right).
        * by rewrite decide_False by (by apply not_elem_of_cons). }
    apply Forall_app. split.
    { destruct (requeues f); [|constructor].
      constructor; [|constructor]. exists id, f. split; [by left|done]. }
    eapply Forall_impl; [exact Hdepth|].
    intros bk (id' & f' & Hin & Hf' & Hlen').
    exists id', f'. split; [by right|]. split; [|done].
    rewrite <- Hother; [done|]. by intros ->.
Qed.

Lemma length_of_lookup {A B} (l : list A) (l' : list B) :
  (forall i, is_Some (l' !! i) <-> is_Some (l !! i)) -> length l' = length l.
Proof.
  intros Hl.
  destruct (Nat.lt_trichotomy (length l') (length l)) as [Hlt|[Heq|Hlt]]; [|done|].
  - apply lookup_lt_is_Some_2, Hl, lookup_lt_is_Some_1 in Hlt. lia.
  - apply lookup_lt_is_Some_2, Hl, lookup_lt_is_Some_1 in Hlt. lia.
Qed.

Lemma events_of_elem id ev (evs : list (Event R)) :
  ev ∈ evs -> event_frame ev = Some id -> ev ∈ events_of id evs.
Proof. intros Hin Hid. by apply list_elem_of_filter. Qed.

Lemma send_pending_spec w :
  send_pending w
  = Ok tt (mkWorld (frames w) (nextCalls w) []
             (trace w ++ match pending w with [] => [] | b => [RoundTrip b] end)).
Proof.
  unfold send_pending. destruct w as [fs q p tr]; cbn.
  destruct p; [by rewrite app_nil_r|done].
Qed.

(** A round of [Execute]: it panics when a queued continuation does; else
    every queued frame takes one step, and the frames that go deeper make up
    the next queue, their fetches the next batch. *)
Lemma Execute_round_or_panic n w :
  wf w ->
  nextCalls w <> [] ->
  if existsb (panics_at w) (nextCalls w) then Execute (S n) w = Panic
  else
  exists w' evs,
    Execute (S n) w = Execute n w'
    /\ wf w'
    /\ (forall id,
          frames w' !! id
          = (fun f => if decide (id ∈ nextCalls w) then frame_after f else f)
              <$> frames w !! id)
    /\ nextCalls w' = filter (fun id => requeued w id) (nextCalls w)
    /\ trace w' = trace w ++ evs
    /\ round_trips evs = match pending w with [] => [] | b => [b] end
    /\ (forall id,
          events_of id evs
          = if decide (id ∈ nextCalls w)
            then default [] (step_events id <$> frames w !! id)
            else [])
    /\ Forall (fun bk => exists id f,
                 id ∈ nextCalls w /\ frames w !! id = Some f
                 /\ HashLen bk = hashLen f + 1) (pending w').
Proof.
  intros Hwf Hne.
  set (w0 := mkWorld (frames w) [] []
               (trace w ++ match pending w with [] => [] | b => [RoundTrip b] end)).
  pose proof (run_calls_spec (nextCalls w) w0 (wf_nodup w Hwf) (wf_queue w Hwf))
    as Hcalls.
  change (existsb (panics_at w0) (nextCalls w))
    with (existsb (panics_at w) (nextCalls w)) in Hcalls.
  assert (Hstart : Execute (S n) w
                   = bind (run_calls (nextCalls w)) (fun _ => Execute n) w0).
  { cbn [Execute]. destruct (nextCalls w) eqn:Hq; [done|].
    unfold bind at 1. by rewrite send_pending_spec. }
  destruct (existsb (panics_at w) (nextCalls w)).
  { rewrite Hstart. unfold bind. by rewrite Hcalls. }
  destruct Hcalls
    as (w' & evs & ks & Hrun & Hfr & Hnc & Hp & Htr & Hklen & Hks & Hevs & Hrt
        & Hev & Hdepth).
  cbn [frames nextCalls pending trace w0 app] in Hfr, Hnc, Hp, Htr, Hev, Hdepth.
  assert (Hlen : length (frames w') = length (frames w)).
  { apply length_of_lookup. intros i. rewrite Hfr. apply fmap_is_Some. }
  exists w', (match pending w with [] => [] | b => [RoundTrip b] end ++ evs).
  split.
  { rewrite Hstart. unfold bind at 1. by rewrite Hrun. }
  split.
  { constructor.
    - rewrite Hnc. apply NoDup_filter, Hwf.
    - rewrite Hnc. apply Forall_forall. intros id [Hrq Hin]%list_elem_of_filter.
      pose proof (wf_queue w Hwf) as Hq. rewrite Forall_forall in Hq.
      destruct (Hq id Hin) as (f & Hf & Harmed).
      change (Is_true (requeued w id)) in Hrq. apply Is_true_true in Hrq.
      unfold requeued in Hrq. rewrite Hf in Hrq.
      exists (frame_after f). split; [|by apply frame_after_armed].
      rewrite Hfr, Hf. cbn. by rewrite decide_True.
    - apply Forall_lookup. intros i f' Hf'. rewrite Hfr in Hf'.
      destruct (frames w !! i) as [f|] eqn:Hf; [|done]. cbn in Hf'.
      injection Hf' as <-.
      pose proof (Forall_lookup_1 _ _ _ _ (wf_frames w Hwf) Hf) as Hrange.
      case_decide as Hin; [|done].
      pose proof (wf_queue w Hwf) as Hq. rewrite Forall_forall in Hq.
      destruct (Hq i Hin) as (f0 & Hf0 & Harmed).
      rewrite Hf in Hf0. injection Hf0 as <-.
      by apply frame_after_ok.
    - by rewrite Hp.
    - by rewrite Hp, Hnc.
    - rewrite Htr. apply Forall_app. split; [|done].
      apply Forall_app. split; [apply Hwf|].
      pose proof (wf_pending w Hwf) as Hpk.
      destruct (pending w); [constructor|].
      constructor; [exact Hpk|constructor].
    - intros ev id. rewrite Htr, Hlen.
      intros [[Hin|Hin]%elem_of_app|Hin]%elem_of_app Hid.
      + by eapply (wf_ids w Hwf).
      + destruct (pending w); [by apply elem_of_nil in Hin|].
        apply list_elem_of_singleton in Hin. by subst.
      + pose proof (events_of_elem id ev evs Hin Hid) as Hin'.
        rewrite Hev in Hin'. case_decide as Hq; [|by apply elem_of_nil in Hin'].
        pose proof (wf_queue w Hwf) as Hqs. rewrite Forall_forall in Hqs.
        destruct (Hqs id Hq) as (f & Hf & _). by eapply lookup_lt_Some. }
  split; [done|]. split; [done|].
  split; [by rewrite Htr, <- app_assoc|].
  split.
  { rewrite round_trips_app, Hrt, app_nil_r. by destruct (pending w). }
  split; [|by rewrite Hp].
  intros id. rewrite events_of_app, Hev.
  replace (events_of id match pending w with [] => [] | b => [RoundTrip b] end)
    with (@nil (Event R)); [done|].
  destruct (pending w); [done|]. unfold events_of.
  by rewrite filter_cons_False by done.
Qed.

(** *** The whole drain *)

Lemma elem_of_requeued w id f (q : list nat) :
  frames w !! id = Some f ->
  id ∈ filter (fun id0 => requeued w id0) q <-> id ∈ q /\ requeues f = true.
Proof.
  intros Hf. rewrite list_elem_of_filter.
  change (Is_true (requeued w id) /\ id ∈ q <-> id ∈ q /\ requeues f = true).
  unfold requeued. rewrite Hf, Is_true_true. tauto.
Qed.

Lemma Execute_idle n w : nextCalls w = [] -> Execute n w = Ok tt w.
Proof. intros Hq. destruct n; cbn; by rewrite Hq. Qed.

(** Once its fuel covers the levels still to go, [Execute] panics when the
    descent of a queued frame does, and else comes back, every queued frame
    having run its descent to the end. *)
Lemma Execute_spec_or_panic n : forall w (d : nat),
  wf w ->
  (forall id f, id ∈ nextCalls w -> frames w !! id = Some f -> Z.of_nat d <= hashLen f) ->
  (5 <= n + d)%nat ->
  if existsb (descent_panics n w) (nextCalls w) then Execute n w = Panic
  else
  exists w' evs,
    Execute n w = Ok tt w'
    /\ wf w'
    /\ nextCalls w' = []
    /\ (forall id,
          frames w' !! id
          = (fun f => if decide (id ∈ nextCalls w) then run_frame n f else f)
              <$> frames w !! id)
    /\ trace w' = trace w ++ evs
    /\ (forall id,
          events_of id evs
          = if decide (id ∈ nextCalls w)
            then default [] (run_events n id <$> frames w !! id)
            else []).
Proof.
  assert (Hidle : forall m w, wf w -> nextCalls w = [] ->
    if existsb (descent_panics m w) (nextCalls w) then Execute m w = Panic
    else
    exists w' evs,
      Execute m w = Ok tt w' /\ wf w' /\ nextCalls w' = []
      /\ (forall id,
            frames w' !! id
            = (fun f => if decide (id ∈ nextCalls w) then run_frame m f else f)
                <$> frames w !! id)
      /\ trace w' = trace w ++ evs
      /\ (forall id,
            events_of id evs
            = if decide (id ∈ nextCalls w)
              then default [] (run_events m id <$> frames w !! id)
              else [])).
  { intros m w Hwf Hq. rewrite Hq. cbn [existsb]. exists w, [].
    rewrite Execute_idle, app_nil_r by done.
    split; [done|]. split; [done|]. split; [done|].
    split; [|split; [done|]].
    - intros id. destruct (decide (id ∈ [])) as [Hin|_];
        [by apply elem_of_nil in Hin|by destruct (frames w !! id)].
    - intros id. by rewrite decide_False by apply not_elem_of_nil. }
  induction n as [|n IH]; intros w d Hwf Hdeep Hfuel.
  - apply Hidle; [done|].
    destruct (nextCalls w) as [|id q] eqn:Hq; [done|exfalso].
    pose proof (wf_queue w Hwf) as Hqs. rewrite Hq in Hqs.
    apply Forall_cons in Hqs as [(f & Hf & [Hd _]) _].
    specialize (Hdeep id f ltac:(by left) Hf). lia.
  - destruct (decide (nextCalls w = [])) as [Hq|Hq]; [by apply Hidle|].
    assert (Hqueued : forall id, id ∈ nextCalls w ->
              exists f, frames w !! id = Some f /\ armed f).
    { pose proof (wf_queue w Hwf) as Hqs. rewrite Forall_forall in Hqs. exact Hqs. }
    pose proof (Execute_round_or_panic n w Hwf Hq) as Hround.
    destruct (existsb (panics_at w) (nextCalls w)) eqn:Hnow.
    { replace (existsb (descent_panics (S n) w) (nextCalls w)) with true; [done|].
      symmetry. apply existsb_true.
      apply existsb_true in Hnow as (id & Hin & Hp). exists id. split; [done|].
      unfold panics_at in Hp. unfold descent_panics.
      destruct (frames w !! id); [|done]. cbn [run_panics]. by rewrite Hp. }
    destruct Hround as (w1 & evs1 & Hex & Hwf1 & Hfr1 & Hnc1 & Htr1 & _ & Hev1 & _).
    assert (Hlater : existsb (descent_panics (S n) w) (nextCalls w)
                     = existsb (descent_panics n w1) (nextCalls w1)).
    { apply Bool.eq_true_iff_eq. rewrite !existsb_true.
      rewrite existsb_false in Hnow. split.
      - intros (id & Hin & Hp). exists id.
        destruct (Hqueued id Hin) as (f & Hf & _).
        specialize (Hnow id Hin). unfold panics_at in Hnow.
        unfold descent_panics in Hp |- *. rewrite Hfr1, Hnc1.
        rewrite Hf in Hnow, Hp |- *. cbn [run_panics] in Hp.
        rewrite Hnow in Hp. cbn [orb] in Hp.
        apply andb_true_iff in Hp as [Hrq Hp].
        split; [by apply (elem_of_requeued w id f)|].
        cbn. by rewrite decide_True.
      - intros (id & Hin & Hp). exists id. rewrite Hnc1 in Hin.
        unfold descent_panics in Hp |- *. rewrite Hfr1 in Hp.
        destruct (frames w !! id) as [f|] eqn:Hf; [|done].
        destruct (proj1 (elem_of_requeued w id f _ Hf) Hin) as [Hin' Hrq].
        split; [done|]. cbn in Hp. rewrite decide_True in Hp by done.
        cbn [run_panics]. rewrite Hrq, Hp. apply orb_true_r. }
    rewrite Hlater.
    specialize (IH w1 (S d) Hwf1).
    destruct (existsb (descent_panics n w1) (nextCalls w1)).
    { rewrite Hex. apply IH; [|lia].
      intros id f1 Hin Hf1. rewrite Hfr1 in Hf1.
      destruct (frames w !! id) as [f|] eqn:Hf; [|done].
      rewrite Hnc1 in Hin.
      destruct (proj1 (elem_of_requeued w id f _ Hf) Hin) as [Hin' Hrq].
      cbn in Hf1. rewrite decide_True in Hf1 by done. injection Hf1 as <-.
      rewrite frame_after_requeued by done. cbn.
      specialize (Hdeep id f Hin' Hf). lia. }
    destruct IH as (w' & evs & Hrun & Hwf' & Hnc' & Hfr' & Htr' & Hev').
    { intros id f1 Hin Hf1. rewrite Hfr1 in Hf1.
      destruct (frames w !! id) as [f|] eqn:Hf; [|done].
      rewrite Hnc1 in Hin.
      destruct (proj1 (elem_of_requeued w id f _ Hf) Hin) as [Hin' Hrq].
      cbn in Hf1. rewrite decide_True in Hf1 by done. injection Hf1 as <-.
      rewrite frame_after_requeued by done. cbn.
      specialize (Hdeep id f Hin' Hf). lia. }
    { lia. }
    exists w', (evs1 ++ evs).
    split; [by rewrite Hex|]. split; [done|]. split; [done|].
    split; [|split; [by rewrite Htr', Htr1, app_assoc|]].
    + intros id. rewrite Hfr', Hfr1, Hnc1.
      destruct (frames w !! id) as [f|] eqn:Hf; [|done]. cbn. f_equal.
      destruct (decide (id ∈ nextCalls w)) as [Hin|Hnin].
      * destruct (requeues f) eqn:Hrq.
        -- by rewrite decide_True by (by apply (elem_of_requeued w id f)).
        -- rewrite decide_False; [done|].
           rewrite (elem_of_requeued w id f) by done. intros [_ ?]. congruence.
      * rewrite decide_False; [done|].
        rewrite (elem_of_requeued w id f) by done. tauto.
    + intros id. rewrite events_of_app, Hev', Hev1, Hfr1, Hnc1.
      destruct (frames w !! id) as [f|] eqn:Hf.
      * cbn. destruct (decide (id ∈ nextCalls w)) as [Hin|Hnin].
        -- destruct (requeues f) eqn:Hrq.
           ++ by rewrite decide_True by (by apply (elem_of_requeued w id f)).
           ++ rewrite decide_False; [done|].
              rewrite (elem_of_requeued w id f) by done. intros [_ ?]. congruence.
        -- rewrite decide_False; [done|].
           rewrite (elem_of_requeued w id f) by done. tauto.
      * cbn. destruct (decide (id ∈ nextCalls w)) as [Hin|Hnin].
        -- destruct (Hqueued id Hin) as (f & Hf' & _). congruence.
        -- by case_decide.
Qed.

(** *** [Get] and the invariant *)

Lemma frame_at_armed rk k d : 0 <= d <= 4 -> armed (frame_at rk k d).
Proof. intros Hd. by split. Qed.

Lemma new_world_wf : wf (@new_world T R K).
Proof.
  constructor; cbn; try constructor.
  intros ev id Hin. by apply elem_of_nil in Hin.
Qed.

Lemma Get_spec rk k w :
  Get rk k w
  = Ok (length (frames w))
      (mkWorld (frames w ++ [frame_at rk k 0])
         (nextCalls w ++ [length (frames w)])
         (pending w ++ [level_key rk (Key_Hash k) 0])
         (trace w ++ [CallHashAtLevel (length (frames w)) 0;
                      ItemGet (length (frames w)) (level_key rk (Key_Hash k) 0)])).
Proof.
  unfold Get, bind at 1 2, alloc_frame, ret.
  erewrite doGetFn_spec;
    [|cbn [frames]; apply list_lookup_middle; reflexivity|cbn; lia].
  cbn [frames nextCalls pending trace rootKey keyHash hashLen set_rootBucketFn
       key result].
  rewrite insert_app_r_alt, Nat.sub_diag by done. reflexivity.
Qed.

Lemma Get_wf rk k w id w' : wf w -> Get rk k w = Ok id w' -> wf w'.
Proof.
  intros Hwf. rewrite Get_spec. intros [= <- <-].
  assert (Hlt : forall id, id ∈ nextCalls w -> (id < length (frames w))%nat).
  { intros id Hin. pose proof (wf_queue w Hwf) as Hq.
    rewrite Forall_forall in Hq. destruct (Hq id Hin) as (f & Hf & _).
    by eapply lookup_lt_Some. }
  constructor; cbn [frames nextCalls pending trace].
  - apply NoDup_app. split; [apply Hwf|]. split; [|apply NoDup_singleton].
    intros id Hin ->%list_elem_of_singleton. specialize (Hlt _ Hin). lia.
  - apply Forall_app. split.
    + eapply Forall_impl; [apply Hwf|]. intros id (f & Hf & Ha).
      exists f. split; [|done]. by apply lookup_app_l_Some.
    + constructor; [|constructor]. exists (frame_at rk k 0).
      split; [by apply list_lookup_middle|by apply frame_at_armed].
  - apply Forall_app. split; [apply Hwf|].
    constructor; [|constructor]. unfold frame_ok, maxDeepLevels. cbn. lia.
  - apply Forall_app. split; [apply Hwf|].
    constructor; [by apply (level_key_ok rk)|constructor].
  - rewrite !length_app. cbn. f_equal. apply Hwf.
  - apply Forall_app. split; [apply Hwf|].
    constructor; [cbn; lia|].
    constructor; [by apply (level_key_ok rk)|constructor].
  - intros ev id. rewrite length_app. cbn [length].
    intros [Hin|Hin]%elem_of_app Hid.
    + pose proof (wf_ids w Hwf ev id Hin Hid). lia.
    + apply elem_of_cons in Hin as [->|Hin]; [cbn in Hid; simplify_eq; lia|].
      apply list_elem_of_singleton in Hin as ->. cbn in Hid. simplify_eq. lia.
Qed.

(** A round of a drain that comes back. *)
Lemma Execute_round_Ok n w w'' :
  wf w ->
  nextCalls w <> [] ->
  Execute (S n) w = Ok tt w'' ->
  exists w' evs,
    Execute (S n) w = Execute n w'
    /\ wf w'
    /\ (forall id,
          frames w' !! id
          = (fun f => if decide (id ∈ nextCalls w) then frame_after f else f)
              <$> frames w !! id)
    /\ nextCalls w' = filter (fun id => requeued w id) (nextCalls w)
    /\ trace w' = trace w ++ evs
    /\ round_trips evs = match pending w with [] => [] | b => [b] end
    /\ (forall id,
          events_of id evs
          = if decide (id ∈ nextCalls w)
            then default [] (step_events id <$> frames w !! id)
            else [])
    /\ Forall (fun bk => exists id f,
                 id ∈ nextCalls w /\ frames w !! id = Some f
                 /\ HashLen bk = hashLen f + 1) (pending w').
Proof.
  intros Hwf Hq Hex. pose proof (Execute_round_or_panic n w Hwf Hq) as Hround.
  destruct (existsb _ _); [congruence|exact Hround].
Qed.

Lemma Execute_wf fuel w w' : wf w -> Execute fuel w = Ok tt w' -> wf w'.
Proof.
  revert w. induction fuel as [|n IH]; intros w Hwf Hex.
  - cbn in Hex. destruct (nextCalls w); [|done]. by injection Hex as <-.
  - destruct (decide (nextCalls w = [])) as [Hq|Hq].
    + rewrite Execute_idle in Hex by done. by injection Hex as <-.
    + destruct (Execute_round_Ok n w w' Hwf Hq Hex) as (w1 & evs & Heq & Hwf1 & _).
      rewrite Heq in Hex. by eapply IH.
Qed.

(** The invariant holds in every world a program can reach. *)
Lemma reachable_wf w : reachable w -> wf w.
Proof.
  induction 1 as [|w rk k id w' _ IH HGet|w fuel w' _ IH HEx].
  - apply new_world_wf.
  - by eapply Get_wf.
  - by eapply Execute_wf.
Qed.

Lemma events_of_fresh w : wf w -> events_of (length (frames w)) (trace w) = [].
Proof.
  intros Hwf. apply elem_of_nil_inv.
  intros ev [Hid Hin]%list_elem_of_filter.
  pose proof (wf_ids w Hwf ev _ Hin Hid). lia.
Qed.

(** After a round every queued frame is one level deeper. *)
Lemma round_deeper w w1 (d : nat) :
  wf w ->
  (forall id f, id ∈ nextCalls w -> frames w !! id = Some f -> Z.of_nat d <= hashLen f) ->
  (forall id,
      frames w1 !! id
      = (fun f => if decide (id ∈ nextCalls w) then frame_after f else f)
          <$> frames w !! id) ->
  nextCalls w1 = filter (fun id => requeued w id) (nextCalls w) ->
  forall id f, id ∈ nextCalls w1 -> frames w1 !! id = Some f ->
               Z.of_nat (S d) <= hashLen f.
Proof.
  intros Hwf Hdeep Hfr Hnc id f1 Hin Hf1. rewrite Hfr in Hf1.
  destruct (frames w !! id) as [f|] eqn:Hf; [|done].
  rewrite Hnc in Hin.
  destruct (proj1 (elem_of_requeued w id f _ Hf) Hin) as [Hin' Hrq].
  cbn in Hf1. rewrite decide_True in Hf1 by done. injection Hf1 as <-.
  rewrite frame_after_requeued by done. cbn.
  specialize (Hdeep id f Hin' Hf). lia.
Qed.

Lemma queued_depth w : wf w ->
  forall id f, id ∈ nextCalls w -> frames w !! id = Some f -> Z.of_nat 0 <= hashLen f.
Proof.
  intros Hwf id f Hin Hf. pose proof (wf_queue w Hwf) as Hq.
  rewrite Forall_forall in Hq. destruct (Hq id Hin) as (f' & Hf' & [Hd _]).
  simplify_eq. lia.
Qed.

(** A [Get] in any well-formed session, then its closure: the closure
    panics when the descent of a queued call does, that of its own call or
    of another; else it comes back with what the descent of the call's own
    frame ends in, and the call's events are those of that descent. *)
Lemma Get_wait_or_panic rk k w fuel :
  wf w ->
  (5 <= fuel)%nat ->
  exists w1,
    Get rk k w = Ok (length (frames w)) w1
    /\ nextCalls w1 = nextCalls w ++ [length (frames w)]
    /\ frames w1 !! length (frames w) = Some (frame_at rk k 0)
    /\ if existsb (descent_panics fuel w1) (nextCalls w1)
       then Get_wait fuel (length (frames w)) w1 = Panic
       else
       exists w2,
         Get_wait fuel (length (frames w)) w1
         = Ok (resp (result (run_frame fuel (frame_at rk k 0))),
               err (result (run_frame fuel (frame_at rk k 0)))) w2
         /\ wf w2
         /\ nextCalls w2 = []
         /\ frames w2 !! length (frames w) = Some (run_frame fuel (frame_at rk k 0))
         /\ events_of (length (frames w)) (trace w2)
            = [CallHashAtLevel (length (frames w)) 0;
               ItemGet (length (frames w)) (level_key rk (Key_Hash k) 0)]
              ++ run_events fuel (length (frames w)) (frame_at rk k 0).
Proof.
  intros Hwf Hfuel.
  pose proof (Get_spec rk k w) as HGet. set (w1 := mkWorld _ _ _ _) in HGet.
  pose proof (Get_wf rk k w _ w1 Hwf HGet) as Hwf1.
  assert (Hin : length (frames w) ∈ nextCalls w1)
    by (cbn; apply elem_of_app; right; by left).
  assert (Hf1 : frames w1 !! length (frames w) = Some (frame_at rk k 0))
    by (by apply list_lookup_middle).
  exists w1. split; [done|]. split; [done|]. split; [done|].
  pose proof (Execute_spec_or_panic fuel w1 0 Hwf1 (queued_depth w1 Hwf1)
                ltac:(lia)) as Hdrain.
  destruct (existsb (descent_panics fuel w1) (nextCalls w1)).
  { unfold Get_wait, bind at 1. by rewrite Hdrain. }
  destruct Hdrain as (w2 & evs & Hrun & Hwf2 & Hq2 & Hfr & Htr & Hev).
  assert (Hf2 : frames w2 !! length (frames w)
                = Some (run_frame fuel (frame_at rk k 0))).
  { rewrite Hfr, Hf1. cbn. by rewrite decide_True. }
  exists w2. split.
  { unfold Get_wait, bind at 1. rewrite Hrun.
    unfold bind, get_frame, must, ret. by rewrite Hf2. }
  do 3 (split; [done|]).
  rewrite Htr. cbn [trace w1]. rewrite !events_of_app, events_of_fresh by done.
  rewrite Hev, decide_True, Hf1 by done. cbn [app fmap option_fmap option_map default].
  f_equal. unfold events_of. rewrite !filter_cons_True by done. done.
Qed.

(** *** The descent of one frame *)

Section Descent.

Variables (rk : R) (k : K) (id : nat).

Lemma requeues_frame_at (d : Z) :
  requeues (frame_at rk k d)
  = branch_taken rk (Key_Hash k) d && (d + 1 <? maxDeepLevels).
Proof. reflexivity. Qed.

Lemma frame_after_deeper (d : Z) :
  requeues (frame_at rk k d) = true ->
  frame_after (frame_at rk k d) = frame_at rk k (d + 1).
Proof. intros Hrq. by rewrite frame_after_requeued. Qed.

Lemma branch_taken_no_error d :
  branch_taken rk (Key_Hash k) d = true ->
  snd (backend (level_key rk (Key_Hash k) d)) = None.
Proof. unfold branch_taken. by destruct (snd (backend _)). Qed.

Lemma step_panics_branch d :
  branch_taken rk (Key_Hash k) d = true -> step_panics (frame_at rk k d) = false.
Proof.
  intros Hb. unfold step_panics. cbn [rootKey keyHash hashLen key frame_at].
  rewrite branch_taken_no_error by done.
  unfold branch_taken in Hb. rewrite branch_taken_no_error in Hb by done.
  by rewrite Hb.
Qed.

(** Down to level [d] the frame only goes deeper. *)
Lemma run_frame_descend (d : nat) : forall n,
  Z.of_nat d <= 4 ->
  descends_to rk (Key_Hash k) d = true ->
  run_frame (d + n) (frame_at rk k 0) = run_frame n (frame_at rk k (Z.of_nat d))
  /\ fetches (run_events (d + n) id (frame_at rk k 0))
     = map (fun i => level_key rk (Key_Hash k) (Z.of_nat i)) (seq 1 d)
       ++ fetches (run_events n id (frame_at rk k (Z.of_nat d))).
Proof.
  induction d as [|d IH]; intros n Hd Hdesc; [done|].
  cbn [descends_to] in Hdesc. apply andb_true_iff in Hdesc as [Hdesc Hb].
  destruct (IH (S n) ltac:(lia) Hdesc) as [IHf IHe].
  assert (Hrq : requeues (frame_at rk k (Z.of_nat d)) = true).
  { rewrite requeues_frame_at, Hb. unfold maxDeepLevels.
    destruct (Z.ltb_spec (Z.of_nat d + 1) 5); [done|lia]. }
  replace (S d + n)%nat with (d + S n)%nat by lia.
  rewrite IHf, IHe. cbn [run_frame run_events]. rewrite Hrq.
  rewrite frame_after_deeper by done.
  replace (Z.of_nat d + 1) with (Z.of_nat (S d)) by lia.
  split; [done|].
  rewrite seq_S, map_app, <- app_assoc, fetches_app. f_equal.
  unfold step_events. cbn [rootKey keyHash hashLen frame_at].
  rewrite branch_taken_no_error by done. rewrite Hrq.
  cbn [fetches map app]. do 3 f_equal. lia.
Qed.

(** No scan is made on the way down, so nothing panics there. *)
Lemma run_panics_descend (d : nat) : forall n,
  Z.of_nat d <= 4 ->
  descends_to rk (Key_Hash k) d = true ->
  run_panics (d + n) (frame_at rk k 0) = run_panics n (frame_at rk k (Z.of_nat d)).
Proof.
  induction d as [|d IH]; intros n Hd Hdesc; [done|].
  cbn [descends_to] in Hdesc. apply andb_true_iff in Hdesc as [Hdesc Hb].
  assert (Hrq : requeues (frame_at rk k (Z.of_nat d)) = true).
  { rewrite requeues_frame_at, Hb. unfold maxDeepLevels.
    destruct (Z.ltb_spec (Z.of_nat d + 1) 5); [done|lia]. }
  replace (S d + n)%nat with (d + S n)%nat by lia.
  rewrite (IH (S n)) by (done || lia). cbn [run_panics].
  rewrite step_panics_branch, Hrq by done. cbn [orb andb].
  rewrite frame_after_deeper by done.
  by replace (Z.of_nat d + 1) with (Z.of_nat (S d)) by lia.
Qed.

End Descent.

(** What a scan that does not panic comes back with. *)
Lemma scanItems_first_match k items found :
  scanItems k items = Some found ->
  first_match k items
    (match found with
     | Some bucketItem => mkNull true bucketItem
     | None => mkNull false zeroT
     end).
Proof.
  induction items as [|x items IH]; [intros [= <-]; by right|].
  cbn [scanItems]. destruct (Key_eq (getKey x) k) as [[|]|] eqn:Hx; [| |done].
  - intros [= <-]. left. by exists [], x, items.
  - intros Hscan.
    destruct (IH Hscan) as [(before & y & after & -> & Hy & Hbefore & Hr)|[Hall Hr]].
    + left. exists (x :: before), y, after.
      repeat split; [done|by constructor|done].
    + right. split; [by constructor|done].
Qed.

(** The last step of a descent that ends in a terminal bucket. *)
Lemma run_frame_terminal rk k id (d : Z) bucket n :
  backend (level_key rk (Key_Hash k) d) = (bucket, None) ->
  GetBit (Bitset bucket) (offset_of (Key_Hash k) d) = false ->
  result (run_frame (S n) (frame_at rk k d))
  = mkGetResult
      (match scanItems k (Items bucket) with
       | Some (Some bucketItem) => mkNull true bucketItem
       | _ => mkNull false zeroT
       end) None
  /\ fetches (run_events (S n) id (frame_at rk k d)) = []
  /\ run_panics (S n) (frame_at rk k d)
     = match scanItems k (Items bucket) with None => true | Some _ => false end.
Proof.
  intros Hb Hbit.
  assert (Hrq : requeues (frame_at rk k d) = false).
  { rewrite requeues_frame_at. unfold branch_taken. rewrite Hb. cbn [fst snd].
    by rewrite Hbit. }
  cbn [run_frame run_events run_panics]. rewrite Hrq.
  unfold frame_after, step_events, step_panics.
  cbn [rootKey keyHash hashLen key frame_at].
  rewrite Hb, Hrq. cbn [fst snd]. rewrite Hbit.
  split; [|split; [done|]].
  - by destruct (scanItems k (Items bucket)) as [[x|]|].
  - by destruct (scanItems k (Items bucket)).
Qed.

(** The last step of a descent whose fetch fails. *)
Lemma run_frame_error rk k id (d : Z) bucket e n :
  backend (level_key rk (Key_Hash k) d) = (bucket, Some e) ->
  result (run_frame (S n) (frame_at rk k d))
  = mkGetResult (mkNull false zeroT) (Some e)
  /\ fetches (run_events (S n) id (frame_at rk k d)) = [].
Proof.
  intros Hb.
  assert (Hrq : requeues (frame_at rk k d) = false).
  { rewrite requeues_frame_at. unfold branch_taken. by rewrite Hb. }
  cbn [run_frame run_events]. rewrite Hrq.
  unfold frame_after, step_events. cbn [rootKey keyHash hashLen key frame_at].
  by rewrite Hb.
Qed.


Lemma fetches_to_split {R'} (rk : R') h (d : nat) :
  fetches_to rk h d
  = level_key rk h 0
    :: map (fun i => level_key rk h (Z.of_nat i)) (seq 1 d).
Proof. reflexivity. Qed.

(** *** Key types whose [==] cannot panic *)

Lemma run_panics_strict n f : StrictKey K -> run_panics n f = false.
Proof.
  intros Hstrict. destruct (run_panics n f) eqn:Hp; [exfalso|done].
  apply run_panics_scan in Hp as (k & items & Hscan).
  apply scanItems_None in Hscan as (x & _ & Hx).
  destruct (Hstrict (getKey x) k) as [b Hb]. congruence.
Qed.

Lemma descent_panics_strict n w (q : list nat) :
  StrictKey K -> existsb (descent_panics n w) q = false.
Proof.
  intros Hstrict. apply existsb_false. intros id _. unfold descent_panics.
  destruct (frames w !! id); [by apply run_panics_strict|done].
Qed.


(** *** The claims on [Get] *)

(** C1, as the code has it. In a bucket that [Get] reaches and whose bit at
    the query key's next-byte offset is unset, [Get] scans [Items] in
    storage order and compares the key of each item with the query key by
    the [==] of the key type. Its closure comes back or panics. When it
    comes back, it is with a nil error and the first item for which the
    comparison holds, [Valid = true], or, when the comparison fails for
    every item, with the zero [Null], [Valid = false]. It panics when a
    comparison of the scan panics before one holds. It comes back when the
    scan does not panic and no other call is queued on the session, and it
    always does for a key type whose [==] cannot panic. *)
Theorem Get_terminal_bucket_scan rk k w (d : nat) bucket fuel :
  reachable w ->
  Z.of_nat d < maxDeepLevels ->
  descends_to rk (Key_Hash k) d = true ->
  backend (level_key rk (Key_Hash k) (Z.of_nat d)) = (bucket, None) ->
  GetBit (Bitset bucket) (offset_of (Key_Hash k) (Z.of_nat d)) = false ->
  (5 <= fuel)%nat ->
  exists id w1,
    Get rk k w = Ok id w1
    /\ Get_wait fuel id w1 <> OutOfFuel
    /\ (forall out w2,
          Get_wait fuel id w1 = Ok out w2 ->
          exists r, out = (r, None) /\ first_match k (Items bucket) r)
    /\ (scanItems k (Items bucket) = None -> Get_wait fuel id w1 = Panic)
    /\ (nextCalls w = [] -> scanItems k (Items bucket) <> None ->
        exists r w2,
          Get_wait fuel id w1 = Ok (r, None) w2
          /\ first_match k (Items bucket) r)
    /\ (StrictKey K ->
        exists r w2,
          Get_wait fuel id w1 = Ok (r, None) w2
          /\ first_match k (Items bucket) r).
Proof.
  intros Hreach Hd Hdesc Hb Hbit Hfuel. unfold maxDeepLevels in Hd.
  destruct (Get_wait_or_panic rk k w fuel (reachable_wf w Hreach) Hfuel)
    as (w1 & HGet & Hq1 & Hf1 & Hwait).
  set (id := length (frames w)) in *.
  destruct (run_frame_descend rk k id d (S (fuel - d - 1)) ltac:(lia) Hdesc)
    as [Hrun _].
  pose proof (run_panics_descend rk k d (S (fuel - d - 1)) ltac:(lia) Hdesc)
    as Hpanics.
  replace (d + S (fuel - d - 1))%nat with fuel in Hrun, Hpanics by lia.
  destruct (run_frame_terminal rk k id _ bucket (fuel - d - 1) Hb Hbit)
    as (Hres & _ & Hlast).
  rewrite Hlast in Hpanics. rewrite Hrun, Hres in Hwait. cbn [resp err] in Hwait.
  assert (Hown : existsb (descent_panics fuel w1) (nextCalls w1) = false ->
                 run_panics fuel (frame_at rk k 0) = false).
  { intros Hnone. rewrite existsb_false in Hnone.
    specialize (Hnone id). unfold descent_panics in Hnone. rewrite Hf1 in Hnone.
    apply Hnone. rewrite Hq1. apply elem_of_app. right. by left. }
  assert (Hback : existsb (descent_panics fuel w1) (nextCalls w1) = false ->
                  exists r w2,
                    Get_wait fuel id w1 = Ok (r, None) w2
                    /\ first_match k (Items bucket) r).
  { intros Hnone. specialize (Hown Hnone). rewrite Hown in Hpanics.
    rewrite Hnone in Hwait. destruct Hwait as (w2 & Hwait & _).
    destruct (scanItems k (Items bucket)) as [found|] eqn:Hscan; [|done].
    eexists _, w2. split; [exact Hwait|].
    pose proof (scanItems_first_match k (Items bucket) found Hscan) as Hfirst.
    by destruct found. }
  exists id, w1. split; [exact HGet|].
  split.
  { destruct (existsb _ _); [by rewrite Hwait|].
    destruct Hwait as (w2 & -> & _). done. }
  split.
  { intros out w2 Hout.
    destruct (existsb (descent_panics fuel w1) (nextCalls w1)) eqn:Hany;
      [congruence|].
    destruct (Hback eq_refl) as (r & w2' & Hok & Hfirst).
    rewrite Hok in Hout. injection Hout as <- _. by exists r. }
  split.
  { intros Hscan. rewrite Hscan in Hpanics.
    destruct (existsb (descent_panics fuel w1) (nextCalls w1)) eqn:Hany; [done|].
    specialize (Hown eq_refl). congruence. }
  split.
  { intros Hidle Hscan. apply Hback.
    rewrite Hq1, Hidle. cbn [app existsb]. unfold descent_panics.
    rewrite Hf1, Hpanics, orb_false_r.
    by destruct (scanItems k (Items bucket)). }
  intros Hstrict. apply Hback. by apply descent_panics_strict.
Qed.

(** *** The engine on a key type whose [==] cannot panic

    From here on the [==] of the key type always gives an answer, as it
    does on the strictly comparable types of Go: the integers, the strings,
    the floats, and the structs and arrays of these. Nothing else is asked
    of it; it may fail on a value and itself and hold of different values.
    No continuation panics then, so that a drain comes back whatever is
    queued on the session. *)

Context `{!StrictKey K}.


(** [Execute] comes back once its fuel covers the levels still to go, and
    every queued frame has then run its descent to the end. *)
Lemma Execute_spec n w (d : nat) :
  wf w ->
  (forall id f, id ∈ nextCalls w -> frames w !! id = Some f -> Z.of_nat d <= hashLen f) ->
  (5 <= n + d)%nat ->
  exists w' evs,
    Execute n w = Ok tt w'
    /\ wf w'
    /\ nextCalls w' = []
    /\ (forall id,
          frames w' !! id
          = (fun f => if decide (id ∈ nextCalls w) then run_frame n f else f)
              <$> frames w !! id)
    /\ trace w' = trace w ++ evs
    /\ (forall id,
          events_of id evs
          = if decide (id ∈ nextCalls w)
            then default [] (run_events n id <$> frames w !! id)
            else []).
Proof.
  intros Hwf Hdeep Hfuel.
  pose proof (Execute_spec_or_panic n w d Hwf Hdeep Hfuel) as Hdrain.
  by rewrite descent_panics_strict in Hdrain.
Qed.

(** A [Get] in any well-formed session, then its closure: the closure comes
    back with what the descent of the call's own frame ends in, and the
    call's events are those of that descent. *)
Lemma Get_wait_spec rk k w fuel :
  wf w ->
  (5 <= fuel)%nat ->
  exists w1 w2,
    Get rk k w = Ok (length (frames w)) w1
    /\ Get_wait fuel (length (frames w)) w1
       = Ok (resp (result (run_frame fuel (frame_at rk k 0))),
             err (result (run_frame fuel (frame_at rk k 0)))) w2
    /\ wf w2
    /\ nextCalls w2 = []
    /\ frames w2 !! length (frames w) = Some (run_frame fuel (frame_at rk k 0))
    /\ events_of (length (frames w)) (trace w2)
       = [CallHashAtLevel (length (frames w)) 0;
          ItemGet (length (frames w)) (level_key rk (Key_Hash k) 0)]
         ++ run_events fuel (length (frames w)) (frame_at rk k 0).
Proof.
  intros Hwf Hfuel.
  pose proof (Get_spec rk k w) as HGet. set (w1 := mkWorld _ _ _ _) in HGet.
  pose proof (Get_wf rk k w _ w1 Hwf HGet) as Hwf1.
  destruct (Execute_spec fuel w1 0 Hwf1) as (w2 & evs & Hrun & Hwf2 & Hq2 & Hfr & Htr & Hev).
  { intros id f Hin Hf. pose proof (wf_queue w1 Hwf1) as Hq.
    rewrite Forall_forall in Hq. destruct (Hq id Hin) as (f' & Hf' & [Hd _]).
    simplify_eq. lia. }
  { lia. }
  assert (Hin : length (frames w) ∈ nextCalls w1)
    by (cbn; apply elem_of_app; right; by left).
  assert (Hf1 : frames w1 !! length (frames w) = Some (frame_at rk k 0))
    by (by apply list_lookup_middle).
  assert (Hf2 : frames w2 !! length (frames w)
                = Some (run_frame fuel (frame_at rk k 0))).
  { rewrite Hfr, Hf1. cbn. by rewrite decide_True. }
  exists w1, w2. split; [done|].
  split.
  { unfold Get_wait, bind at 1. rewrite Hrun.
    unfold bind, get_frame, must, ret. by rewrite Hf2. }
  do 3 (split; [done|]).
  rewrite Htr. cbn [trace w1]. rewrite !events_of_app, events_of_fresh by done.
  rewrite Hev, decide_True, Hf1 by done. cbn [app fmap option_fmap option_map default].
  f_equal. unfold events_of. rewrite !filter_cons_True by done. done.
Qed.

(** A [Get] whose descent reaches level [d]: the closure comes back with
    what the last steps, from level [d] on, leave in the frame. *)
Lemma Get_descent_to rk k w (d : nat) fuel :
  wf w ->
  Z.of_nat d <= 4 ->
  descends_to rk (Key_Hash k) d = true ->
  (5 <= fuel)%nat ->
  exists n w1 w2,
    Get rk k w = Ok (length (frames w)) w1
    /\ Get_wait fuel (length (frames w)) w1
       = Ok (resp (result (run_frame (S n) (frame_at rk k (Z.of_nat d)))),
             err (result (run_frame (S n) (frame_at rk k (Z.of_nat d))))) w2
    /\ frames w2 !! length (frames w)
       = Some (run_frame (S n) (frame_at rk k (Z.of_nat d)))
    /\ fetches (events_of (length (frames w)) (trace w2))
       = fetches_to rk (Key_Hash k) d
         ++ fetches (run_events (S n) (length (frames w))
                       (frame_at rk k (Z.of_nat d))).
Proof.
  intros Hwf Hd Hdesc Hfuel.
  destruct (Get_wait_spec rk k w fuel Hwf Hfuel)
    as (w1 & w2 & HGet & Hwait & _ & _ & Hf2 & Hev).
  exists (fuel - d - 1)%nat, w1, w2.
  destruct (run_frame_descend rk k (length (frames w)) d (S (fuel - d - 1)) Hd Hdesc)
    as [Hrun Hfetch].
  replace (d + S (fuel - d - 1))%nat with fuel in Hrun, Hfetch by lia.
  rewrite <- Hrun. do 3 (split; [done|]).
  rewrite Hev, fetches_app, Hfetch, fetches_to_split. reflexivity.
Qed.



Lemma level_key_root (rk : R) h : level_key rk h 0 = mkBucketKey rk 0 0.
Proof.
  unfold level_key. f_equal. unfold prefix_of.
  apply Z.bits_inj'. intros i Hi.
  rewrite Z.land_spec, testbit_level_mask, Z.bits_0 by lia.
  change (64 - 8 * 0) with 64.
  destruct (Z.leb_spec 64 i), (Z.ltb_spec i 64); try lia; apply andb_false_r.
Qed.









End EngineProofs.


(** ** The engine at work on the small index *)

(** [==] on strings and on integers cannot panic. *)
#[global] Instance demo_StrictKey : StrictKey string.
Proof. intros a b. by eexists. Qed.

#[global] Instance num_StrictKey : StrictKey Z.
Proof. intros a b. by eexists. Qed.

Example demo_shallow_hit :
  exists w1 w2,
    Get "shallow" "alice" new_world = Ok 0%nat w1
    /\ Get_wait 5 0 w1 = Ok (mkNull true ("alice", 2), None) w2
    /\ fetches (trace w2) = [mkBucketKey "shallow" 0 0].
Proof.
  eexists _, _.
  split; [vm_compute; reflexivity|].
  split; vm_compute; reflexivity.
Qed.

Example demo_split_hit :
  exists w1 w2,
    Get "split" "alice" new_world = Ok 0%nat w1
    /\ Get_wait 5 0 w1 = Ok (mkNull true ("alice", 5), None) w2
    /\ fetches (trace w2)
       = [mkBucketKey "split" 0 0; mkBucketKey "split" 0x0100000000000000 1].
Proof.
  eexists _, _.
  split; [vm_compute; reflexivity|].
  split; vm_compute; reflexivity.
Qed.

Example demo_deep_hashLen : hashLen <$> frames demo_deep_world = [5].
Proof. vm_compute. reflexivity. Qed.



Lemma demo_queued_world_reachable : reachable demo_queued_world.
Proof.
  eapply (reach_Get new_world "deep" "alice"); [apply reach_new|].
  vm_compute. reflexivity.
Qed.

(** The index with interface keys. A number is found behind a NaN; the
    stored NaN is not found, as [==] fails on it; a number stored behind the
    slice is found, as values of two dynamic types compare unequal; and the
    lookup of a slice panics when the scan comes to the stored slice. *)
Example any_number_hit :
  exists w1 w2,
    Get "any" (KNum 7) new_world = Ok 0%nat w1
    /\ Get_wait 5 0 w1 = Ok (mkNull true (KNum 7, "seven"), None) w2.
Proof.
  eexists _, _.
  split; [vm_compute; reflexivity|].
  vm_compute. reflexivity.
Qed.

Example any_NaN_absent :
  exists w1 w2,
    Get "any" KNaN new_world = Ok 0%nat w1
    /\ Get_wait 5 0 w1 = Ok (mkNull false (KNum 0, ""), None) w2.
Proof.
  eexists _, _.
  split; [vm_compute; reflexivity|].
  vm_compute. reflexivity.
Qed.

Example any_number_behind_slice :
  exists w1 w2,
    Get "any" (KNum 8) new_world = Ok 0%nat w1
    /\ Get_wait 5 0 w1 = Ok (mkNull true (KNum 8, "eight"), None) w2.
Proof.
  eexists _, _.
  split; [vm_compute; reflexivity|].
  vm_compute. reflexivity.
Qed.

Example any_slice_panics :
  exists w1,
    Get "any" (KSlice [2]) new_world = Ok 0%nat w1
    /\ Get_wait 5 0 w1 = Panic.
Proof.
  eexists. split; [vm_compute; reflexivity|].
  vm_compute. reflexivity.
Qed.

(** C1, as it is written, fails: it has the closure come back with an item
    or with the zero [Null] for every bucket that is reached with its bit
    unset, but the lookup of a key of the slice type in the index with
    interface keys panics in the scan, on the comparison with the stored
    slice. *)
Lemma scan_panics_on_uncomparable_key :
  ~ (forall (rk : string) (k : any_key)
            (w : @World (any_key * string) string any_key) (d : nat)
            bucket fuel,
        reachable w ->
        Z.of_nat d < maxDeepLevels ->
        descends_to rk (Key_Hash k) d = true ->
        backend (level_key rk (Key_Hash k) (Z.of_nat d)) = (bucket, None) ->
        GetBit (Bitset bucket) (offset_of (Key_Hash k) (Z.of_nat d)) = false ->
        (5 <= fuel)%nat ->
        exists id w1 w2 r,
          Get rk k w = Ok id w1
          /\ Get_wait fuel id w1 = Ok (r, None) w2).
Proof.
  intros Hall.
  destruct (Hall "any" (KSlice [2]) new_world 0%nat
              (mkBucket any_items no_bits) 5%nat)
    as (id & w1 & w2 & r & HGet & Hwait).
  - apply reach_new.
  - unfold maxDeepLevels. lia.
  - reflexivity.
  - reflexivity.
  - vm_compute. reflexivity.
  - lia.
  - vm_compute in HGet. injection HGet as <- <-.
    vm_compute in Hwait. discriminate.
Qed.

Example demo_render :
  BucketKey_String id (mkBucketKey "user:7" 0x01ff000000000000 2)
  = Some "user:7:01ff"
  /\ BucketKey_String id (mkBucketKey "user:7" 0 0) = Some "user:7:".
Proof. split; vm_compute; reflexivity. Qed.

(** ** The theorems at concrete inputs *)

Lemma Get_terminal_bucket_scan_witness :
  exists id w1,
    Get "shallow" "alice" new_world = Ok id w1
    /\ Get_wait 5 id w1 <> OutOfFuel
    /\ (forall out w2,
          Get_wait 5 id w1 = Ok out w2 ->
          exists r,
            out = (r, None)
            /\ first_match "alice"
                 (Items (mkBucket [("bob", 1); ("alice", 2); ("alice", 3)] no_bits))
                 r)
    /\ (scanItems "alice"
          (Items (mkBucket [("bob", 1); ("alice", 2); ("alice", 3)] no_bits))
        = None ->
        Get_wait 5 id w1 = Panic)
    /\ (nextCalls (@new_world demo_item string string) = [] ->
        scanItems "alice"
          (Items (mkBucket [("bob", 1); ("alice", 2); ("alice", 3)] no_bits))
        <> None ->
        exists r w2,
          Get_wait 5 id w1 = Ok (r, None) w2
          /\ first_match "alice"
               (Items (mkBucket [("bob", 1); ("alice", 2); ("alice", 3)] no_bits))
               r)
    /\ (StrictKey string ->
        exists r w2,
          Get_wait 5 id w1 = Ok (r, None) w2
          /\ first_match "alice"
               (Items (mkBucket [("bob", 1); ("alice", 2); ("alice", 3)] no_bits))
               r).
Proof.
  apply (Get_terminal_bucket_scan "shallow" "alice" new_world 0
           (mkBucket [("bob", 1); ("alice", 2); ("alice", 3)] no_bits) 5).
  - apply reach_new.
  - unfold maxDeepLevels. lia.
  - vm_compute. reflexivity.
  - vm_compute. reflexivity.
  - vm_compute. reflexivity.
  - lia.
Defined.



Lemma computeHashAtLevel_top_bytes_witness :
  computeHashAtLevel 0x0102030405060708 2
  = Some (keep_top_bytes 0x0102030405060708 2)
  /\ (forall i, 0 <= i ->
        Z.testbit (keep_top_bytes 0x0102030405060708 2) i
        = Z.testbit 0x0102030405060708 i && (64 - 8 * 2 <=? i))
  /\ computeHashAtLevel 0x0102030405060708 0 = Some 0.
Proof.
  apply (computeHashAtLevel_top_bytes 0x0102030405060708 2).
  - unfold is_uint64. lia.
  - unfold maxDeepLevels. lia.
Defined.

Lemma computeBitOffsetAtNextLevel_big_endian_witness :
  exists b,
    computeBitOffsetAtNextLevel 0x0102030405060708 2 = Some b
    /\ 0 <= b <= 255
    /\ PutUint64 0x0102030405060708 !! Z.to_nat 2 = Some b
    /\ b = big_endian_byte 0x0102030405060708 2.
Proof.
  apply (computeBitOffsetAtNextLevel_big_endian 0x0102030405060708 2).
  - unfold is_uint64. lia.
  - unfold maxDeepLevels. lia.
Defined.

Lemma child_prefix_extends_parent_witness :
  exists parent child offset,
    computeHashAtLevel 0x0102030405060708 2 = Some parent
    /\ computeHashAtLevel 0x0102030405060708 (2 + 1) = Some child
    /\ computeBitOffsetAtNextLevel 0x0102030405060708 2 = Some offset
    /\ child = parent + Z.shiftl offset (64 - 8 * (2 + 1)).
Proof.
  apply (child_prefix_extends_parent 0x0102030405060708 2).
  - unfold is_uint64. lia.
  - unfold maxDeepLevels. lia.
Defined.

Lemma BucketKey_String_render_witness :
  BucketKey_String id (mkBucketKey "user:7" 0x01ff000000000000 2)
  = Some (render_spec id (mkBucketKey "user:7" 0x01ff000000000000 2))
  /\ (HashLen (mkBucketKey "user:7" 0x01ff000000000000 2) = 0 ->
      BucketKey_String id (mkBucketKey "user:7" 0x01ff000000000000 2)
      = Some ("user:7" +:+ ":")).
Proof.
  apply (BucketKey_String_render id (mkBucketKey "user:7" 0x01ff000000000000 2)).
  unfold maxDeepLevels. cbn. lia.
Defined.

Lemma BucketKey_String_depth_injective_witness :
  exists s1 s2,
    BucketKey_String id (mkBucketKey "user:7" 0 0) = Some s1
    /\ BucketKey_String id (mkBucketKey "user:7" 0x0100000000000000 1) = Some s2
    /\ s1 <> s2.
Proof.
  apply (BucketKey_String_depth_injective id (mkBucketKey "user:7" 0 0)
           (mkBucketKey "user:7" 0x0100000000000000 1)).
  - reflexivity.
  - unfold maxDeepLevels. cbn. lia.
  - unfold maxDeepLevels. cbn. lia.
  - cbn. lia.
Defined.



(** * Further properties of the code *)

(** ** More on the hash-prefix arithmetic *)

Lemma level_mask_land s1 s2 :
  0 <= s1 -> 0 <= s2 ->
  Z.land (level_mask s1) (level_mask s2) = level_mask (Z.max s1 s2).
Proof.
  intros H1 H2. apply Z.bits_inj'. intros i Hi.
  rewrite Z.land_spec, !testbit_level_mask by lia.
  destruct (Z.leb_spec s1 i), (Z.leb_spec s2 i), (Z.leb_spec (Z.max s1 s2) i),
    (Z.ltb_spec i 64); try lia; reflexivity.
Qed.

Lemma prefix_of_compose h d1 d2 :
  d1 <= 8 -> d2 <= 8 ->
  prefix_of (prefix_of h d1) d2 = prefix_of h (Z.min d1 d2).
Proof.
  intros H1 H2. unfold prefix_of.
  rewrite <- Z.land_assoc, level_mask_land by lia.
  do 2 f_equal. lia.
Qed.

(** X1. Taking the prefix of a prefix gives the shorter of the two
    prefixes; in particular [computeHashAtLevel] leaves alone a hash that
    is already a prefix of that length. *)
Theorem computeHashAtLevel_compose hash d1 d2 :
  0 <= d1 <= 8 -> 0 <= d2 <= 8 ->
  exists p,
    computeHashAtLevel hash d1 = Some p
    /\ computeHashAtLevel p d2 = computeHashAtLevel hash (Z.min d1 d2)
    /\ computeHashAtLevel p d1 = Some p.
Proof.
  intros H1 H2. exists (prefix_of hash d1).
  rewrite !computeHashAtLevel_prefix by lia.
  rewrite !prefix_of_compose by lia.
  rewrite Z.min_id. done.
Qed.

Lemma level_mask_high s : 64 <= s -> level_mask s = 0.
Proof.
  intros Hs. apply Z.bits_inj'. intros i Hi.
  rewrite testbit_level_mask, Z.bits_0 by lia.
  destruct (Z.leb_spec s i), (Z.ltb_spec i 64); try lia; reflexivity.
Qed.

Lemma land_level_mask_0 h : is_uint64 h -> Z.land h (level_mask 0) = h.
Proof.
  intros Hh. rewrite land_level_mask by (auto; lia).
  change (2 ^ 0) with 1. rewrite Z.div_1_r. lia.
Qed.

(** X2. [computeHashAtLevel] outside the levels of a descent: a negative
    [hashLen] gives 0 (the shift count is above 64), [hashLen = 8] gives
    the whole hash, and a [hashLen] above 8 panics on the negative shift
    count ([hashLen] small enough for [8 * hashLen] not to overflow). *)
Theorem computeHashAtLevel_outside hash n :
  is_uint64 hash ->
  - 2 ^ 59 <= n <= 2 ^ 59 ->
  (n < 0 -> computeHashAtLevel hash n = Some 0)
  /\ (n = 8 -> computeHashAtLevel hash n = Some hash)
  /\ (8 < n -> computeHashAtLevel hash n = None).
Proof.
  intros Hh Hn.
  assert (Hw : int_wrap (64 - int_wrap (8 * n)) = 64 - 8 * n).
  { rewrite (int_wrap_small (8 * n)) by lia. apply int_wrap_small. lia. }
  split; [|split]; intros Hc.
  - unfold computeHashAtLevel, shl_u64. rewrite Hw.
    destruct (Z.ltb_spec (64 - 8 * n) 0); [lia|]. cbn [mbind option_bind].
    fold (level_mask (64 - 8 * n)). rewrite level_mask_high by lia.
    by rewrite Z.land_0_r.
  - subst n. rewrite computeHashAtLevel_prefix by lia. unfold prefix_of.
    change (64 - 8 * 8) with 0. by rewrite land_level_mask_0.
  - unfold computeHashAtLevel, shl_u64. rewrite Hw.
    destruct (Z.ltb_spec (64 - 8 * n) 0); [done|lia].
Qed.

Lemma shiftr_uint64_high h s : is_uint64 h -> 64 <= s -> Z.shiftr h s = 0.
Proof.
  intros Hh Hs. apply Z.bits_inj'. intros i Hi.
  rewrite Z.shiftr_spec, Z.bits_0 by lia.
  apply testbit_uint64_high; [done|lia].
Qed.

(** X3. [computeBitOffsetAtNextLevel] outside the eight bytes of the hash:
    a negative [currentHashLen] gives 0, and one of 8 or more panics on the
    negative shift count. *)
Theorem computeBitOffsetAtNextLevel_outside hash n :
  is_uint64 hash ->
  - 2 ^ 59 <= n <= 2 ^ 59 ->
  (n < 0 -> computeBitOffsetAtNextLevel hash n = Some 0)
  /\ (8 <= n -> computeBitOffsetAtNextLevel hash n = None).
Proof.
  intros Hh Hn.
  assert (Hw : int_wrap (int_wrap (64 - 8) - int_wrap (n * 8)) = 56 - 8 * n).
  { rewrite (int_wrap_small (64 - 8)), (int_wrap_small (n * 8)) by lia.
    rewrite int_wrap_small by lia. lia. }
  unfold computeBitOffsetAtNextLevel, shr_u64. rewrite Hw.
  split; intros Hc.
  - destruct (Z.ltb_spec (56 - 8 * n) 0); [lia|]. cbn [mbind option_bind].
    rewrite shiftr_uint64_high by (auto; lia). reflexivity.
  - destruct (Z.ltb_spec (56 - 8 * n) 0); [done|lia].
Qed.

Lemma testbit_offset_of h d j :
  0 <= d <= 7 -> 0 <= j ->
  Z.testbit (offset_of h d) j = Z.testbit h (j + (56 - 8 * d)) && (j <? 8).
Proof.
  intros Hd Hj. unfold offset_of.
  rewrite Z.land_spec, Z.shiftr_spec by lia.
  change 255 with (Z.ones 8). by rewrite Z.testbit_ones_nonneg by lia.
Qed.

Lemma uint64_eq_of_offsets h1 h2 :
  is_uint64 h1 -> is_uint64 h2 ->
  (forall d, 0 <= d <= 7 -> offset_of h1 d = offset_of h2 d) ->
  h1 = h2.
Proof.
  intros H1 H2 Hoff. apply Z.bits_inj'. intros i Hi.
  destruct (Z.le_gt_cases 64 i) as [Hhi|Hlo].
  - by rewrite !testbit_uint64_high.
  - set (d := 7 - i / 8).
    assert (Hd : 0 <= d <= 7).
    { pose proof (Z.div_pos i 8 ltac:(lia) ltac:(lia)).
      pose proof (Z.div_lt_upper_bound i 8 8 ltac:(lia) ltac:(lia)). lia. }
    pose proof (Z.div_mod i 8 ltac:(lia)) as Hdm.
    pose proof (Z.mod_pos_bound i 8 ltac:(lia)) as Hm.
    specialize (Hoff d ltac:(lia)).
    apply (f_equal (fun z => Z.testbit z (i mod 8))) in Hoff.
    rewrite !testbit_offset_of in Hoff by lia.
    replace (i mod 8 + (56 - 8 * d)) with i in Hoff by (unfold d; lia).
    destruct (Z.ltb_spec (i mod 8) 8); [|lia].
    by rewrite !andb_true_r in Hoff.
Qed.

(** X4. The eight offsets of a hash determine it: two 64-bit hashes with
    the same [computeBitOffsetAtNextLevel] at the levels 0 to 7 are
    equal. *)
Theorem hash_from_offsets h1 h2 :
  is_uint64 h1 -> is_uint64 h2 ->
  (forall d, 0 <= d < 8 ->
     computeBitOffsetAtNextLevel h1 d = computeBitOffsetAtNextLevel h2 d) ->
  h1 = h2.
Proof.
  intros H1 H2 Hoff. apply uint64_eq_of_offsets; [done|done|].
  intros d Hd. specialize (Hoff d ltac:(lia)).
  rewrite !computeBitOffsetAtNextLevel_offset in Hoff by lia.
  by injection Hoff.
Qed.

Lemma offset_of_prefix h n d :
  0 <= d < n -> n <= 8 -> offset_of (prefix_of h n) d = offset_of h d.
Proof.
  intros Hd Hn. apply Z.bits_inj'. intros j Hj.
  rewrite !testbit_offset_of by lia.
  destruct (Z.ltb_spec j 8); [|by rewrite !andb_false_r].
  rewrite !andb_true_r. unfold prefix_of.
  rewrite Z.land_spec, testbit_level_mask by lia.
  destruct (Z.leb_spec (64 - 8 * n) (j + (56 - 8 * d))); [|lia].
  destruct (Z.ltb_spec (j + (56 - 8 * d)) 64); [|lia].
  apply andb_true_r.
Qed.

Lemma shared_prefix_levels h1 h2 n :
  0 <= n <= 8 ->
  prefix_of h1 n = prefix_of h2 n ->
  (forall d, 0 <= d <= n -> prefix_of h1 d = prefix_of h2 d)
  /\ (forall d, 0 <= d < n -> offset_of h1 d = offset_of h2 d).
Proof.
  intros Hn Heq. split; intros d Hd.
  - rewrite <- (Z.min_r n d) by lia.
    rewrite <- !prefix_of_compose by lia. by rewrite Heq.
  - rewrite <- (offset_of_prefix h1 n d), <- (offset_of_prefix h2 n d) by lia.
    by rewrite Heq.
Qed.

(** X5. Two hashes with the same prefix of length [n] have the same
    prefix at every level up to [n] and the same next-byte offset at every
    level below [n]. *)
Theorem shared_prefix_shares_path h1 h2 n :
  0 <= n <= 8 ->
  computeHashAtLevel h1 n = computeHashAtLevel h2 n ->
  (forall d, 0 <= d <= n -> computeHashAtLevel h1 d = computeHashAtLevel h2 d)
  /\ (forall d, 0 <= d < n ->
        computeBitOffsetAtNextLevel h1 d = computeBitOffsetAtNextLevel h2 d).
Proof.
  intros Hn Heq. rewrite !computeHashAtLevel_prefix in Heq by lia.
  injection Heq as Heq.
  destruct (shared_prefix_levels h1 h2 n Hn Heq) as [Hp Ho].
  split; intros d Hd.
  - rewrite !computeHashAtLevel_prefix by lia. f_equal. by apply Hp.
  - rewrite !computeBitOffsetAtNextLevel_offset by lia. f_equal. by apply Ho.
Qed.

(** ** More on the rendering of bucket keys *)

Lemma big_endian_byte_offset h i :
  0 <= i <= 7 -> big_endian_byte h i = offset_of h i.
Proof. intros Hi. by rewrite <- to_byte_big_endian. Qed.

Lemma take_big_endian_bytes h1 h2 (n : nat) :
  (forall i, 0 <= i <= 7 -> i < Z.of_nat n -> offset_of h1 i = offset_of h2 i) ->
  take n (big_endian_bytes h1) = take n (big_endian_bytes h2).
Proof.
  intros Hb. unfold big_endian_bytes. rewrite !firstn_map.
  apply map_ext_in. intros i Hin.
  assert (Hall : Forall (fun a => 0 <= a <= 7 /\ a < Z.of_nat n)
                   (take n [0; 1; 2; 3; 4; 5; 6; 7])).
  { do 8 (destruct n as [|n];
          [cbn [take firstn];
           repeat first [apply Forall_nil_2 | apply Forall_cons_2; [lia|]]|]).
    cbn [take firstn].
    repeat first [apply Forall_nil_2 | apply Forall_cons_2; [lia|]].
    rewrite take_nil. apply Forall_nil_2. }
  rewrite Forall_forall in Hall. apply list_elem_of_In in Hin.
  destruct (Hall i Hin) as [Hi Hlt].
  rewrite !big_endian_byte_offset by lia. by apply Hb.
Qed.

Lemma BucketKey_String_prefix_of {R} (R_String : R -> string)
    (rk : R) hash hashLen :
  0 <= hashLen <= 8 ->
  BucketKey_String R_String (mkBucketKey rk (prefix_of hash hashLen) hashLen)
  = BucketKey_String R_String (mkBucketKey rk hash hashLen).
Proof.
  intros Hlen. rewrite !BucketKey_String_eq by (cbn; lia).
  cbn [RootKey Hash HashLen].
  do 4 f_equal. apply take_big_endian_bytes. intros i Hi Hlt.
  apply offset_of_prefix; lia.
Qed.

(** X7. [BucketKey.String] reads only the first [HashLen] bytes of
    [Hash]: the key built with the whole hash renders like the key built
    with [computeHashAtLevel] of it. *)
Theorem BucketKey_String_ignores_low_bytes {R} (R_String : R -> string)
    (rk : R) hash hashLen p :
  computeHashAtLevel hash hashLen = Some p ->
  0 <= hashLen ->
  BucketKey_String R_String (mkBucketKey rk hash hashLen)
  = BucketKey_String R_String (mkBucketKey rk p hashLen).
Proof.
  intros Hp Hlen.
  destruct (Z.le_gt_cases hashLen 8) as [Hle|Hgt].
  - rewrite computeHashAtLevel_prefix in Hp by lia. injection Hp as <-.
    symmetry. apply BucketKey_String_prefix_of. lia.
  - unfold BucketKey_String, slice_to. cbn [Hash HashLen].
    change (Z.of_nat (length (PutUint64 hash))) with 8.
    change (Z.of_nat (length (PutUint64 p))) with 8.
    destruct (Z.leb_spec hashLen 8); [lia|]. by rewrite andb_false_r.
Qed.

Lemma EncodeToString_app l1 l2 :
  EncodeToString (l1 ++ l2) = EncodeToString l1 +:+ EncodeToString l2.
Proof.
  induction l1 as [|b l1 IH]; [reflexivity|].
  cbn [app EncodeToString]. rewrite IH. reflexivity.
Qed.

Lemma string_app_assoc (a b c : string) : (a +:+ b) +:+ c = a +:+ (b +:+ c).
Proof.
  induction a as [|x a IH]; [reflexivity|].
  change (String x ((a +:+ b) +:+ c) = String x (a +:+ (b +:+ c))).
  by rewrite IH.
Qed.

Lemma big_endian_bytes_lookup h (i : nat) :
  (i < 8)%nat -> big_endian_bytes h !! i = Some (offset_of h (Z.of_nat i)).
Proof.
  intros Hi. rewrite <- PutUint64_big_endian, PutUint64_lookup by done.
  reflexivity.
Qed.

(** X8. The string of the bucket key one level down is the string of the
    parent's key followed by the two hexadecimal digits of the byte that
    [computeBitOffsetAtNextLevel] gives at the parent's level. *)
Theorem child_key_extends_parent_key {R} (R_String : R -> string)
    (rk : R) hash d p p' o :
  0 <= d < 8 ->
  computeHashAtLevel hash d = Some p ->
  computeHashAtLevel hash (d + 1) = Some p' ->
  computeBitOffsetAtNextLevel hash d = Some o ->
  exists s,
    BucketKey_String R_String (mkBucketKey rk p d) = Some s
    /\ BucketKey_String R_String (mkBucketKey rk p' (d + 1))
       = Some (s +:+ EncodeToString [o]).
Proof.
  intros Hd Hp Hp' Ho.
  rewrite computeHashAtLevel_prefix in Hp, Hp' by lia.
  injection Hp as <-. injection Hp' as <-.
  rewrite !BucketKey_String_prefix_of by lia.
  rewrite computeBitOffsetAtNextLevel_offset in Ho by lia. injection Ho as <-.
  rewrite !BucketKey_String_eq by (cbn; lia). cbn [RootKey Hash HashLen].
  eexists. split; [reflexivity|]. f_equal.
  replace (Z.to_nat (d + 1)) with (S (Z.to_nat d)) by lia.
  rewrite (take_S_r _ _ (offset_of hash d)).
  - by rewrite EncodeToString_app, !string_app_assoc.
  - rewrite big_endian_bytes_lookup by lia. do 2 f_equal. lia.
Qed.

(** X6. [BucketKey.String] comes back exactly for [HashLen] in [[0, 8]],
    with a string of the length of the root key's string plus one plus
    twice [HashLen]; for any other [HashLen] the slice panics. *)
Theorem BucketKey_String_bounds {R} (R_String : R -> string) (k : BucketKey R) :
  (0 <= HashLen k <= 8 ->
   exists s,
     BucketKey_String R_String k = Some s
     /\ String.length s
        = (String.length (R_String (RootKey k)) + 1 + 2 * Z.to_nat (HashLen k))%nat)
  /\ (HashLen k < 0 \/ 8 < HashLen k -> BucketKey_String R_String k = None).
Proof.
  split.
  - intros Hn. eexists. split; [by apply BucketKey_String_eq|].
    eapply BucketKey_String_length; [done|by apply BucketKey_String_eq].
  - intros Hn. unfold BucketKey_String, slice_to.
    change (Z.of_nat (length (PutUint64 (Hash k)))) with 8.
    destruct (Z.leb_spec 0 (HashLen k)), (Z.leb_spec (HashLen k) 8);
      try lia; reflexivity.
Qed.

Lemma hexchar_inj n1 n2 :
  0 <= n1 < 16 -> 0 <= n2 < 16 -> hexchar n1 = hexchar n2 -> n1 = n2.
Proof.
  intros H1 H2. rewrite !hexchar_hex_digit by done. unfold hex_digit.
  intros Heq. apply (f_equal nat_of_ascii) in Heq.
  rewrite 2!nat_ascii_embedding in Heq
    by (destruct (n1 <? 10), (n2 <? 10); lia).
  revert Heq. destruct (Z.ltb_spec n1 10), (Z.ltb_spec n2 10); lia.
Qed.

Lemma EncodeToString_inj l1 : forall l2,
  Forall (fun b => 0 <= b < 256) l1 ->
  Forall (fun b => 0 <= b < 256) l2 ->
  EncodeToString l1 = EncodeToString l2 -> l1 = l2.
Proof.
  induction l1 as [|b1 l1 IH]; intros [|b2 l2] Hr1 Hr2 Heq;
    cbn [EncodeToString] in Heq; try done.
  apply Forall_cons in Hr1 as [Hb1 Hr1]. apply Forall_cons in Hr2 as [Hb2 Hr2].
  injection Heq as Hhi Hlo Hrest.
  assert (Hnib : forall b, 0 <= b < 256 ->
            0 <= Z.shiftr b 4 < 16 /\ 0 <= Z.land b 15 < 16
            /\ b = 16 * Z.shiftr b 4 + Z.land b 15).
  { intros b Hb. rewrite Z.shiftr_div_pow2 by lia.
    replace (Z.land b 15) with (b mod 2 ^ 4)
      by (symmetry; apply (Z.land_ones b 4); lia).
    change (2 ^ 4) with 16.
    pose proof (Z.div_mod b 16 ltac:(lia)).
    pose proof (Z.mod_pos_bound b 16 ltac:(lia)).
    pose proof (Z.div_pos b 16 ltac:(lia) ltac:(lia)).
    pose proof (Z.div_lt_upper_bound b 16 16 ltac:(lia) ltac:(lia)). lia. }
  destruct (Hnib b1 Hb1) as (Hh1 & Hl1 & Hd1).
  destruct (Hnib b2 Hb2) as (Hh2 & Hl2 & Hd2).
  apply hexchar_inj in Hhi; [|done|done].
  apply hexchar_inj in Hlo; [|done|done].
  f_equal; [lia|by apply IH].
Qed.

Lemma string_app_inv_l (a b c : string) : a +:+ b = a +:+ c -> b = c.
Proof.
  induction a as [|x a IH]; [done|].
  change (String x (a +:+ b) = String x (a +:+ c) -> b = c).
  intros [= Heq]. by apply IH.
Qed.

Lemma offset_of_below_prefix h n d :
  0 <= n <= d -> d <= 7 -> offset_of (prefix_of h n) d = 0.
Proof.
  intros Hn Hd. apply (prefix_of_low_byte h n (56 - 8 * d)); lia.
Qed.

(** X9. For one root key, two bucket keys whose [Hash] is a 64-bit prefix
    of length [HashLen] (at most 8) and that render to the same string are
    the same key. *)
Theorem BucketKey_String_injective {R} (R_String : R -> string)
    (k1 k2 : BucketKey R) :
  RootKey k1 = RootKey k2 ->
  0 <= HashLen k1 <= 8 -> 0 <= HashLen k2 <= 8 ->
  is_uint64 (Hash k1) -> is_uint64 (Hash k2) ->
  computeHashAtLevel (Hash k1) (HashLen k1) = Some (Hash k1) ->
  computeHashAtLevel (Hash k2) (HashLen k2) = Some (Hash k2) ->
  BucketKey_String R_String k1 = BucketKey_String R_String k2 ->
  k1 = k2.
Proof.
  intros Hroot Hn1 Hn2 Hu1 Hu2 Hp1 Hp2 Heq.
  pose proof (BucketKey_String_eq R_String k1 Hn1) as Hs1.
  pose proof (BucketKey_String_eq R_String k2 Hn2) as Hs2.
  pose proof (BucketKey_String_length R_String k1 _ Hn1 Hs1) as L1.
  pose proof (BucketKey_String_length R_String k2 _ Hn2 Hs2) as L2.
  rewrite Hs1, Hs2 in Heq. injection Heq as Heq.
  rewrite Heq, L2, Hroot in L1.
  assert (Hlen : HashLen k1 = HashLen k2) by lia.
  rewrite Hroot, Hlen in Heq.
  apply string_app_inv_l, (string_app_inv_l ":") in Heq.
  apply EncodeToString_inj in Heq;
    [|apply Forall_take, big_endian_bytes_range..].
  rewrite computeHashAtLevel_prefix in Hp1, Hp2 by lia.
  injection Hp1 as Hp1. injection Hp2 as Hp2.
  assert (Hhash : Hash k1 = Hash k2).
  { apply uint64_eq_of_offsets; [done|done|]. intros d Hd.
    destruct (Z.lt_ge_cases d (HashLen k2)) as [Hlt|Hge].
    - apply (f_equal (fun l => l !! Z.to_nat d)) in Heq.
      rewrite !lookup_take_lt, !big_endian_bytes_lookup in Heq by lia.
      rewrite Z2Nat.id in Heq by lia. by injection Heq.
    - rewrite <- Hp1, <- Hp2, Hlen.
      by rewrite !offset_of_below_prefix by lia. }
  destruct k1, k2; cbn in *; by subst.
Qed.

(** ** [New]: the filler of buckets *)

Lemma prefix_of_zero_branch h d :
  0 <= d <= 7 -> offset_of h d = 0 -> prefix_of h (d + 1) = prefix_of h d.
Proof.
  intros Hd Hoff. unfold prefix_of. apply Z.bits_inj'. intros i Hi.
  rewrite !Z.land_spec, !testbit_level_mask by lia.
  destruct (Z.ltb_spec i 64); [|by rewrite !andb_false_r].
  destruct (Z.leb_spec (64 - 8 * (d + 1)) i), (Z.leb_spec (64 - 8 * d) i);
    try lia; try reflexivity.
  apply (f_equal (fun z => Z.testbit z (i - (56 - 8 * d)))) in Hoff.
  rewrite testbit_offset_of, Z.bits_0 in Hoff by lia.
  replace (i - (56 - 8 * d) + (56 - 8 * d)) with i in Hoff by lia.
  destruct (Z.ltb_spec (i - (56 - 8 * d)) 8); [|lia].
  rewrite andb_true_r in Hoff. by rewrite Hoff.
Qed.

(** X10. The filler that [New] builds passes on [RootKey] and [Hash] but
    not [HashLen]: where the next-byte offset of a hash at a level is 0,
    the bucket key of that level and the one of the next level get the
    same answer from it. *)
Theorem bucketFiller_zero_branch {T R}
    (filler : R -> Z -> list Z * option error)
    (bucketUnmarshaler : list Z -> Bucket T * option error)
    (rk : R) hash d p p' :
  0 <= d < 8 ->
  computeHashAtLevel hash d = Some p ->
  computeHashAtLevel hash (d + 1) = Some p' ->
  computeBitOffsetAtNextLevel hash d = Some 0 ->
  bucketFiller filler bucketUnmarshaler (mkBucketKey rk p d)
  = bucketFiller filler bucketUnmarshaler (mkBucketKey rk p' (d + 1)).
Proof.
  intros Hd Hp Hp' Ho.
  rewrite computeHashAtLevel_prefix in Hp, Hp' by lia.
  rewrite computeBitOffsetAtNextLevel_offset in Ho by lia.
  injection Hp as <-. injection Hp' as <-. injection Ho as Ho.
  unfold bucketFiller. cbn [RootKey Hash].
  by rewrite prefix_of_zero_branch by (done || lia).
Qed.

(** ** More on the engine *)

Section EngineExtras.

Context {T R K : Type} `{!Key K} `{!HashEnv T R K}.

Implicit Types (w : @World T R K) (f : @GetFrame T R K) (id : nat).

Lemma scanItems_Some k items x :
  scanItems k items = Some (Some x) -> Key_eq (getKey x) k = Some true.
Proof.
  induction items as [|y items IH]; [done|]. cbn [scanItems].
  destruct (Key_eq (getKey y) k) as [[|]|] eqn:Hy; [by intros [= <-]|done|done].
Qed.

(** What a descent can leave in the result of a frame. *)
Lemma run_frame_outcome n : forall f,
  result f = mkGetResult (mkNull false zeroT) None ->
  key (run_frame n f) = key f
  /\ ((err (result (run_frame n f)) = None
       /\ Valid (resp (result (run_frame n f))) = true
       /\ Key_eq (getKey (Data (resp (result (run_frame n f))))) (key f)
          = Some true)
      \/ (err (result (run_frame n f)) = None
          /\ resp (result (run_frame n f)) = mkNull false zeroT)
      \/ (exists e, err (result (run_frame n f)) = Some e
          /\ resp (result (run_frame n f)) = mkNull false zeroT)).
Proof.
  induction n as [|n IH]; intros f Hres.
  - cbn. split; [done|]. right. left. by rewrite Hres.
  - cbn [run_frame]. destruct (requeues f) eqn:Hrq.
    + rewrite frame_after_requeued by done.
      destruct (IH (set_rootBucketFn
                      (Some (level_key (rootKey f) (keyHash f) (hashLen f + 1)))
                      (set_hashLen (hashLen f + 1) f)) Hres) as [Hk Hout].
      done.
    + unfold frame_after.
      destruct (backend _) as [bucket [e|]]; cbn [fst snd].
      * split; [done|]. right. right. exists e. cbn. by rewrite Hres.
      * destruct (GetBit _ _).
        -- destruct (_ <=? _); (split; [done|]).
           ++ right. right. exists ErrHashTooDeep. cbn. by rewrite Hres.
           ++ right. left. cbn. by rewrite Hres.
        -- destruct (scanItems _ _) as [[x|]|] eqn:Hscan; (split; [done|]).
           ++ left. cbn. rewrite Hres. cbn. split; [done|]. split; [done|].
              by eapply scanItems_Some.
           ++ right. left. by rewrite Hres.
           ++ right. left. by rewrite Hres.
Qed.

(** X12. The closure of [Get] comes back or panics, and what it comes back
    with is one of three: an item with a nil error, and then the [==] of
    the key type holds of the item's key and the query key; the zero [Null]
    with a nil error; or an error with the zero [Null]. For a key type
    whose [==] cannot panic it comes back. *)
Theorem Get_outcome_exclusive rk k w fuel :
  reachable w ->
  (5 <= fuel)%nat ->
  exists id w1,
    Get rk k w = Ok id w1
    /\ Get_wait fuel id w1 <> OutOfFuel
    /\ (forall r e w2,
          Get_wait fuel id w1 = Ok (r, e) w2 ->
          (e = None /\ Valid r = true /\ Key_eq (getKey (Data r)) k = Some true)
          \/ (e = None /\ r = mkNull false zeroT)
          \/ (exists x, e = Some x /\ r = mkNull false zeroT))
    /\ (StrictKey K -> exists out w2, Get_wait fuel id w1 = Ok out w2).
Proof.
  intros Hreach Hfuel.
  destruct (Get_wait_or_panic rk k w fuel (reachable_wf w Hreach) Hfuel)
    as (w1 & HGet & _ & _ & Hwait).
  destruct (run_frame_outcome fuel (frame_at rk k 0) eq_refl) as [_ Hout].
  exists (length (frames w)), w1. split; [exact HGet|].
  split.
  { destruct (existsb _ _); [by rewrite Hwait|].
    destruct Hwait as (w2 & -> & _). done. }
  split.
  { intros r e w2 Hok. destruct (existsb _ _); [congruence|].
    destruct Hwait as (w2' & Hwait & _). rewrite Hwait in Hok.
    injection Hok as <- <- _. exact Hout. }
  intros Hstrict. rewrite descent_panics_strict in Hwait by done.
  destruct Hwait as (w2 & Hwait & _). eauto.
Qed.

(** X11. [Get] itself never panics and sends nothing: it hands the item
    accessor the root bucket key, with hash 0 and length 0 whatever the
    query key, queues its continuation, and leaves its result unset. *)
Theorem Get_is_deferred rk k w :
  exists id w1 f,
    Get rk k w = Ok id w1
    /\ round_trips (trace w1) = round_trips (trace w)
    /\ fetches (trace w1) = fetches (trace w) ++ [mkBucketKey rk 0 0]
    /\ nextCalls w1 = nextCalls w ++ [id]
    /\ frames w1 !! id = Some f
    /\ result f = mkGetResult (mkNull false zeroT) None.
Proof.
  eexists _, _, (frame_at rk k 0). split; [apply Get_spec|].
  cbn [trace nextCalls frames].
  split; [rewrite round_trips_app; cbn; by rewrite app_nil_r|].
  split; [by rewrite fetches_app, level_key_root|].
  split; [done|]. split; [by apply list_lookup_middle|done].
Qed.

Lemma Execute_round_trips fuel : forall w (d : nat) w',
  wf w ->
  (forall id f, id ∈ nextCalls w -> frames w !! id = Some f -> Z.of_nat d <= hashLen f) ->
  Execute fuel w = Ok tt w' ->
  (length (round_trips (trace w')) + d
   <= length (round_trips (trace w)) + 5 \/ nextCalls w = [])%nat
  /\ (nextCalls w = [] -> w' = w).
Proof.
  induction fuel as [|n IH]; intros w d w' Hwf Hdeep Hex.
  - cbn in Hex. destruct (nextCalls w) eqn:Hq; [|done]. injection Hex as <-.
    split; [by right|done].
  - destruct (decide (nextCalls w = [])) as [Hq|Hq].
    + rewrite Execute_idle in Hex by done. injection Hex as <-.
      split; [by right|done].
    + split; [|done]. left.
      destruct (Execute_round_Ok n w w' Hwf Hq Hex)
        as (w1 & evs & Heq & Hwf1 & Hfr & Hnc & Htr & Hrt & _).
      rewrite Heq in Hex.
      assert (Hd : (d <= 4)%nat).
      { destruct (nextCalls w) as [|id q] eqn:Hqq; [done|].
        pose proof (wf_queue w Hwf) as Hqs. rewrite Hqq in Hqs.
        apply Forall_cons in Hqs as [(f & Hf & [Hd _]) _].
        specialize (Hdeep id f ltac:(by left) Hf). lia. }
      assert (Hone : (length (round_trips (trace w1))
                      <= length (round_trips (trace w)) + 1)%nat).
      { rewrite Htr, round_trips_app, length_app, Hrt.
        destruct (pending w); cbn; lia. }
      destruct (IH w1 (S d) w' Hwf1 (round_deeper w w1 d Hwf Hdeep Hfr Hnc) Hex)
        as [[Hle|Hidle] Hsame].
      * lia.
      * rewrite (Hsame Hidle). lia.
Qed.

(** X19. A drain makes at most [maxDeepLevels] backend round trips,
    however many calls are queued. *)
Theorem drain_round_trips_bounded w fuel w' :
  reachable w ->
  Execute fuel w = Ok tt w' ->
  (length (round_trips (trace w'))
   <= length (round_trips (trace w)) + Z.to_nat maxDeepLevels)%nat.
Proof.
  intros Hreach Hex. pose proof (reachable_wf w Hreach) as Hwf.
  destruct (Execute_round_trips fuel w 0 w' Hwf) as [[Hle|Hidle] Hsame];
    [| done | unfold maxDeepLevels; lia |].
  - intros id f Hin Hf. pose proof (wf_queue w Hwf) as Hqs.
    rewrite Forall_forall in Hqs. destruct (Hqs id Hin) as (f' & Hf' & [Hd _]).
    simplify_eq. lia.
  - rewrite (Hsame Hidle). lia.
Qed.




(** *** On a key type whose [==] cannot panic

    As above, [==] always gives an answer and is otherwise any test. *)

Context `{!StrictKey K}.

(** The fetches of a descent from level [d] on are those of the levels
    that follow, without a gap, and stop at the last level at the latest. *)
Lemma run_events_fetches rk k id n : forall d : nat,
  (d <= 4)%nat ->
  exists j : nat,
    (d + j <= 4)%nat
    /\ fetches (run_events n id (frame_at rk k (Z.of_nat d)))
       = map (fun i => level_key rk (Key_Hash k) (Z.of_nat i)) (seq (S d) j).
Proof.
  induction n as [|n IH]; intros d Hd; [exists 0%nat; split; [lia|done]|].
  cbn [run_events]. rewrite fetches_app.
  destruct (requeues (frame_at rk k (Z.of_nat d))) eqn:Hrq.
  - pose proof Hrq as Hrq'. rewrite requeues_frame_at in Hrq'.
    apply andb_true_iff in Hrq' as [Hb Hlt%Z.ltb_lt]. unfold maxDeepLevels in Hlt.
    rewrite frame_after_deeper by done.
    replace (Z.of_nat d + 1) with (Z.of_nat (S d)) by lia.
    destruct (IH (S d) ltac:(lia)) as (j & Hj & ->).
    exists (S j). split; [lia|].
    unfold step_events. cbn [rootKey keyHash hashLen frame_at].
    rewrite branch_taken_no_error by done. rewrite Hrq.
    cbn [fetches app seq map]. do 3 f_equal. lia.
  - exists 0%nat. split; [lia|].
    unfold step_events. cbn [rootKey keyHash hashLen frame_at].
    destruct (snd (backend _)); [done|]. by rewrite Hrq.
Qed.

(** X13. The fetches of one [Get] are those of the levels 0 to [n] for
    some [n <= 4], in order and without a gap: at least one, at most
    [maxDeepLevels]. *)
Theorem Get_fetches_bounded rk k w fuel :
  reachable w ->
  (5 <= fuel)%nat ->
  exists id w1 w2 out (n : nat),
    Get rk k w = Ok id w1
    /\ Get_wait fuel id w1 = Ok out w2
    /\ (n <= 4)%nat
    /\ fetches (events_of id (trace w2)) = fetches_to rk (Key_Hash k) n
    /\ (1 <= length (fetches (events_of id (trace w2)))
           <= Z.to_nat maxDeepLevels)%nat.
Proof.
  intros Hreach Hfuel.
  destruct (Get_wait_spec rk k w fuel (reachable_wf w Hreach) Hfuel)
    as (w1 & w2 & HGet & Hwait & _ & _ & _ & Hev).
  destruct (run_events_fetches rk k (length (frames w)) fuel 0 ltac:(lia))
    as (j & Hj & Hfetch).
  change (Z.of_nat 0) with 0 in Hfetch.
  assert (Heq : fetches (events_of (length (frames w)) (trace w2))
                = fetches_to rk (Key_Hash k) j).
  { rewrite Hev, fetches_app, Hfetch, fetches_to_split. reflexivity. }
  eexists _, w1, w2, _, j. split; [exact HGet|]. split; [exact Hwait|].
  split; [lia|]. split; [exact Heq|].
  rewrite Heq. unfold fetches_to. rewrite length_map, length_seq.
  unfold maxDeepLevels. lia.
Qed.

(** Fuel beyond what the levels need does not change a descent. *)
Lemma run_frame_enough n : forall m f,
  (1 <= n)%nat -> (n <= m)%nat ->
  0 <= hashLen f -> 5 <= Z.of_nat n + hashLen f ->
  run_frame m f = run_frame n f.
Proof.
  induction n as [|n IH]; intros m f Hn Hm Hd Hfuel; [lia|].
  destruct m as [|m]; [lia|]. cbn [run_frame].
  destruct (requeues f) eqn:Hrq; [|done].
  pose proof Hrq as [_ Hlt%Z.ltb_lt]%andb_true_iff. unfold maxDeepLevels in Hlt.
  apply IH; try lia; rewrite frame_after_requeued by done; cbn; lia.
Qed.

(** X15. What [Get] comes back with does not depend on the session it is
    called on nor on how much more than five rounds the drain may take: it
    is what the same call comes back with on a fresh session. *)
Theorem Get_result_session_independent rk k w fuel fuel' :
  reachable w ->
  (5 <= fuel)%nat ->
  (5 <= fuel')%nat ->
  exists id w1 w2 id' w1' w2' out,
    Get rk k w = Ok id w1
    /\ Get_wait fuel id w1 = Ok out w2
    /\ Get rk k new_world = Ok id' w1'
    /\ Get_wait fuel' id' w1' = Ok out w2'.
Proof.
  intros Hreach Hfuel Hfuel'.
  destruct (Get_wait_spec rk k w fuel (reachable_wf w Hreach) Hfuel)
    as (w1 & w2 & HGet & Hwait & _).
  destruct (Get_wait_spec rk k new_world fuel' new_world_wf Hfuel')
    as (w1' & w2' & HGet' & Hwait' & _).
  rewrite (run_frame_enough 5 fuel) in Hwait by (cbn; lia).
  rewrite (run_frame_enough 5 fuel') in Hwait' by (cbn; lia).
  by eexists _, w1, w2, _, w1', w2', _.
Qed.

(** X17. Resolving a second time gives the same result and leaves the
    session as it is: nothing more is fetched or sent. *)
Theorem Get_wait_idempotent rk k w fuel fuel' :
  reachable w ->
  (5 <= fuel)%nat ->
  exists id w1 w2 out,
    Get rk k w = Ok id w1
    /\ Get_wait fuel id w1 = Ok out w2
    /\ Get_wait fuel' id w2 = Ok out w2.
Proof.
  intros Hreach Hfuel.
  destruct (Get_wait_spec rk k w fuel (reachable_wf w Hreach) Hfuel)
    as (w1 & w2 & HGet & Hwait & _ & Hidle & Hf2 & _).
  eexists _, w1, w2, _. split; [exact HGet|]. split; [exact Hwait|].
  unfold Get_wait, bind at 1. rewrite Execute_idle by done.
  unfold bind, get_frame, must, ret. by rewrite Hf2.
Qed.

Lemma Get_wait_Execute fuel id w out w' :
  Get_wait fuel id w = Ok out w' -> Execute fuel w = Ok tt w'.
Proof.
  unfold Get_wait, bind, get_frame, must, ret.
  destruct (Execute fuel w) as [[] w''| |]; [|done|done].
  destruct (frames w'' !! id); [|done]. by intros [= _ <-].
Qed.

(** A drain leaves alone the frames whose continuation is not queued. *)
Lemma Execute_untouched fuel : forall w w' id f,
  wf w ->
  id ∉ nextCalls w ->
  frames w !! id = Some f ->
  Execute fuel w = Ok tt w' ->
  frames w' !! id = Some f /\ id ∉ nextCalls w'.
Proof.
  induction fuel as [|n IH]; intros w w' id f Hwf Hnin Hf Hex.
  - cbn in Hex. destruct (nextCalls w) eqn:Hq; [|done].
    injection Hex as <-. split; [done|]. by rewrite Hq.
  - destruct (decide (nextCalls w = [])) as [Hq|Hq].
    + rewrite Execute_idle in Hex by done. by injection Hex as <-.
    + destruct (Execute_round_Ok n w w' Hwf Hq Hex)
        as (w1 & evs & Heq & Hwf1 & Hfr & Hnc & _).
      rewrite Heq in Hex. apply (IH w1 w' id f); [done| | |done].
      * rewrite Hnc. intros [_ Hin]%list_elem_of_filter. done.
      * rewrite Hfr, Hf. cbn. by rewrite decide_False.
Qed.

(** X18. A later [Get] on the same session, and its resolution, do not
    change what an already resolved call comes back with. *)
Theorem resolved_result_is_stable rk k rk' k' w fuel fuel' fuel'' :
  reachable w ->
  (5 <= fuel)%nat ->
  (5 <= fuel')%nat ->
  exists id w1 w2 out id' w3 w4 out',
    Get rk k w = Ok id w1
    /\ Get_wait fuel id w1 = Ok out w2
    /\ Get rk' k' w2 = Ok id' w3
    /\ Get_wait fuel' id' w3 = Ok out' w4
    /\ Get_wait fuel'' id w4 = Ok out w4.
Proof.
  intros Hreach Hfuel Hfuel'.
  destruct (Get_wait_spec rk k w fuel (reachable_wf w Hreach) Hfuel)
    as (w1 & w2 & HGet & Hwait & Hwf2 & Hidle2 & Hf2 & _).
  destruct (Get_wait_spec rk' k' w2 fuel' Hwf2 Hfuel')
    as (w3 & w4 & HGet' & Hwait' & Hwf4 & Hidle4 & _).
  pose proof (Get_wf _ _ _ _ _ Hwf2 HGet') as Hwf3.
  pose proof (Get_wait_Execute _ _ _ _ _ Hwait') as Hex.
  pose proof (lookup_lt_Some _ _ _ Hf2) as Hlt.
  destruct (Execute_untouched fuel' w3 w4 (length (frames w))
              (run_frame fuel (frame_at rk k 0)) Hwf3) as [Hf4 _]; [| |done|].
  { rewrite Get_spec in HGet'. injection HGet' as <-. cbn.
    rewrite Hidle2. cbn. intros Heq%list_elem_of_singleton. lia. }
  { rewrite Get_spec in HGet'. injection HGet' as <-. cbn.
    by apply lookup_app_l_Some. }
  eexists _, w1, w2, _, _, w3, w4, _.
  split; [exact HGet|]. split; [exact Hwait|].
  split; [exact HGet'|]. split; [exact Hwait'|].
  unfold Get_wait, bind at 1. rewrite Execute_idle by done.
  unfold bind, get_frame, must, ret. by rewrite Hf4.
Qed.

(** Two keys whose hashes agree on the levels of a descent take the same
    steps, up to the scan of the last bucket. *)
Lemma run_frame_same_path rk k1 k2 id1 id2 n :
  (forall d, 0 <= d <= 4 ->
     prefix_of (Key_Hash k1) d = prefix_of (Key_Hash k2) d
     /\ offset_of (Key_Hash k1) d = offset_of (Key_Hash k2) d) ->
  forall d, 0 <= d <= 4 ->
    err (result (run_frame n (frame_at rk k1 d)))
    = err (result (run_frame n (frame_at rk k2 d)))
    /\ fetches (run_events n id1 (frame_at rk k1 d))
       = fetches (run_events n id2 (frame_at rk k2 d)).
Proof.
  intros Hsame. induction n as [|n IH]; intros d Hd; [done|].
  assert (Hkey : forall d', 0 <= d' <= 4 ->
            level_key rk (Key_Hash k1) d' = level_key rk (Key_Hash k2) d').
  { intros d' Hd'. unfold level_key. by rewrite (proj1 (Hsame d' Hd')). }
  assert (Hb : branch_taken rk (Key_Hash k1) d = branch_taken rk (Key_Hash k2) d).
  { unfold branch_taken. by rewrite (Hkey d Hd), (proj2 (Hsame d Hd)). }
  assert (Hrq : requeues (frame_at rk k1 d) = requeues (frame_at rk k2 d)).
  { by rewrite !requeues_frame_at, Hb. }
  cbn [run_frame run_events]. rewrite !fetches_app, Hrq.
  destruct (requeues (frame_at rk k2 d)) eqn:Hgo.
  - pose proof Hgo as Hgo'. rewrite requeues_frame_at in Hgo'.
    apply andb_true_iff in Hgo' as [Hb2 Hlt%Z.ltb_lt]. unfold maxDeepLevels in Hlt.
    rewrite !frame_after_deeper by congruence.
    destruct (IH (d + 1) ltac:(lia)) as [IHe IHf].
    split; [done|]. rewrite IHf. f_equal.
    unfold step_events. cbn [rootKey keyHash hashLen frame_at].
    rewrite Hrq, Hgo, (Hkey d Hd), (Hkey (d + 1)) by lia.
    by destruct (snd (backend _)).
  - unfold frame_after, step_events. cbn [rootKey keyHash hashLen key frame_at].
    rewrite Hrq, Hgo, (Hkey d Hd), (proj2 (Hsame d Hd)).
    destruct (backend _) as [bucket [e|]]; cbn [fst snd]; [done|].
    destruct (GetBit _ _).
    + by destruct (_ <=? _).
    + split; [|done].
      by destruct (scanItems k1 _) as [[?|]|], (scanItems k2 _) as [[?|]|].
Qed.

(** X20. Two query keys whose hashes agree on the first [maxDeepLevels]
    bytes are looked up in the same buckets and come back with the same
    error, for one root key, whatever the backend holds. *)
Theorem Get_same_prefix_same_path rk k1 k2 w w' fuel :
  reachable w ->
  reachable w' ->
  (5 <= fuel)%nat ->
  computeHashAtLevel (Key_Hash k1) maxDeepLevels
  = computeHashAtLevel (Key_Hash k2) maxDeepLevels ->
  exists id1 w1 w2 r1 e1 id2 w1' w2' r2 e2,
    Get rk k1 w = Ok id1 w1
    /\ Get_wait fuel id1 w1 = Ok (r1, e1) w2
    /\ Get rk k2 w' = Ok id2 w1'
    /\ Get_wait fuel id2 w1' = Ok (r2, e2) w2'
    /\ e1 = e2
    /\ fetches (events_of id1 (trace w2)) = fetches (events_of id2 (trace w2')).
Proof.
  intros Hreach Hreach' Hfuel Hpre. unfold maxDeepLevels in Hpre.
  rewrite !computeHashAtLevel_prefix in Hpre by lia. injection Hpre as Hpre.
  destruct (shared_prefix_levels _ _ 5 ltac:(lia) Hpre) as [Hp Ho].
  destruct (Get_wait_spec rk k1 w fuel (reachable_wf w Hreach) Hfuel)
    as (w1 & w2 & HGet & Hwait & _ & _ & _ & Hev).
  destruct (Get_wait_spec rk k2 w' fuel (reachable_wf w' Hreach') Hfuel)
    as (w1' & w2' & HGet' & Hwait' & _ & _ & _ & Hev').
  destruct (run_frame_same_path rk k1 k2 (length (frames w)) (length (frames w')) fuel)
    with (d := 0) as [He Hf]; [|lia|].
  { intros d Hd. split; [apply Hp|apply Ho]; lia. }
  eexists _, w1, w2, _, _, _, w1', w2', _, _.
  split; [exact HGet|]. split; [exact Hwait|].
  split; [exact HGet'|]. split; [exact Hwait'|].
  split; [exact He|].
  rewrite Hev, Hev', !fetches_app, Hf. cbn [fetches].
  by rewrite !level_key_root.
Qed.


(** X14. A [Get] that ends in the bucket of level [d] has fetched the
    buckets of the levels 0 to [d], each once: [d + 1] fetches. *)
Theorem Get_terminal_fetches rk k w (d : nat) bucket fuel :
  reachable w ->
  Z.of_nat d < maxDeepLevels ->
  descends_to rk (Key_Hash k) d = true ->
  backend (level_key rk (Key_Hash k) (Z.of_nat d)) = (bucket, None) ->
  GetBit (Bitset bucket) (offset_of (Key_Hash k) (Z.of_nat d)) = false ->
  (5 <= fuel)%nat ->
  exists id w1 w2 out,
    Get rk k w = Ok id w1
    /\ Get_wait fuel id w1 = Ok out w2
    /\ fetches (events_of id (trace w2)) = fetches_to rk (Key_Hash k) d
    /\ length (fetches (events_of id (trace w2))) = S d.
Proof.
  intros Hreach Hd Hdesc Hb Hbit Hfuel. unfold maxDeepLevels in Hd.
  destruct (Get_descent_to rk k w d fuel (reachable_wf w Hreach) ltac:(lia) Hdesc Hfuel)
    as (n & w1 & w2 & HGet & Hwait & _ & Hfetch).
  destruct (run_frame_terminal rk k (length (frames w)) _ bucket n Hb Hbit)
    as (_ & Hlast & _).
  rewrite Hlast, app_nil_r in Hfetch.
  eexists _, w1, w2, _. split; [exact HGet|]. split; [exact Hwait|].
  split; [exact Hfetch|].
  rewrite Hfetch. unfold fetches_to. by rewrite length_map, length_seq.
Qed.

(** X16. Two calls registered on one session and drained together each
    come back with what they come back with alone on a fresh session. *)
Theorem batched_Gets_keep_their_results rk1 k1 rk2 k2 w fuel :
  reachable w ->
  (5 <= fuel)%nat ->
  exists id1 w1 id2 w2 w3 out1 out2 i1 u1 u2 i2 v1 v2,
    Get rk1 k1 w = Ok id1 w1
    /\ Get rk2 k2 w1 = Ok id2 w2
    /\ Get_wait fuel id1 w2 = Ok out1 w3
    /\ Get_wait fuel id2 w3 = Ok out2 w3
    /\ Get rk1 k1 new_world = Ok i1 u1
    /\ Get_wait fuel i1 u1 = Ok out1 u2
    /\ Get rk2 k2 new_world = Ok i2 v1
    /\ Get_wait fuel i2 v1 = Ok out2 v2.
Proof.
  intros Hreach Hfuel. pose proof (reachable_wf w Hreach) as Hwf.
  pose proof (Get_spec rk1 k1 w) as H1. set (w1 := mkWorld _ _ _ _) in H1.
  pose proof (Get_spec rk2 k2 w1) as H2. set (w2 := mkWorld _ _ _ _) in H2.
  pose proof (Get_wf _ _ _ _ _ Hwf H1) as Hwf1.
  pose proof (Get_wf _ _ _ _ _ Hwf1 H2) as Hwf2.
  set (id1 := length (frames w)) in *. set (id2 := length (frames w1)) in *.
  assert (Hf1 : frames w2 !! id1 = Some (frame_at rk1 k1 0)).
  { cbn. apply lookup_app_l_Some. by apply list_lookup_middle. }
  assert (Hf2 : frames w2 !! id2 = Some (frame_at rk2 k2 0)).
  { cbn. by apply list_lookup_middle. }
  assert (Hin1 : id1 ∈ nextCalls w2).
  { cbn. apply elem_of_app. left. apply elem_of_app. right. by left. }
  assert (Hin2 : id2 ∈ nextCalls w2).
  { cbn. apply elem_of_app. right. by left. }
  destruct (Execute_spec fuel w2 0 Hwf2)
    as (w3 & evs & Hrun & Hwf3 & Hq3 & Hfr & _).
  { intros id f Hin Hf. pose proof (wf_queue w2 Hwf2) as Hq.
    rewrite Forall_forall in Hq. destruct (Hq id Hin) as (f' & Hf' & [Hd _]).
    simplify_eq. lia. }
  { lia. }
  destruct (Get_wait_spec rk1 k1 new_world fuel new_world_wf Hfuel)
    as (u1 & u2 & HGu & Hwu & _).
  destruct (Get_wait_spec rk2 k2 new_world fuel new_world_wf Hfuel)
    as (v1 & v2 & HGv & Hwv & _).
  eexists id1, w1, id2, w2, w3, _, _, _, u1, u2, _, v1, v2.
  split; [exact H1|]. split; [exact H2|].
  split.
  { unfold Get_wait, bind at 1. rewrite Hrun.
    unfold bind, get_frame, must, ret. rewrite Hfr, Hf1. cbn.
    rewrite decide_True by done. reflexivity. }
  split.
  { unfold Get_wait, bind at 1. rewrite Execute_idle by done.
    unfold bind, get_frame, must, ret. rewrite Hfr, Hf2. cbn.
    rewrite decide_True by done. reflexivity. }
  split; [exact HGu|]. split; [exact Hwu|]. split; [exact HGv|exact Hwv].
Qed.


(** X21. When the bucket of a reached level is a cache miss answered by
    the filler of [New] and the filler fails, [Get] comes back with the
    filler's error and the zero [Null]. *)
Theorem Get_filler_error
    (filler : R -> Z -> list Z * option error)
    (bucketUnmarshaler : list Z -> Bucket T * option error)
    rk k w (d : nat) p e fuel :
  reachable w ->
  Z.of_nat d < maxDeepLevels ->
  descends_to rk (Key_Hash k) d = true ->
  computeHashAtLevel (Key_Hash k) (Z.of_nat d) = Some p ->
  backend (mkBucketKey rk p (Z.of_nat d))
  = bucketFiller filler bucketUnmarshaler (mkBucketKey rk p (Z.of_nat d)) ->
  snd (filler rk p) = Some e ->
  (5 <= fuel)%nat ->
  exists id w1 w2,
    Get rk k w = Ok id w1
    /\ Get_wait fuel id w1 = Ok (mkNull false zeroT, Some e) w2.
Proof.
  intros Hreach Hd Hdesc Hp Hmiss Hfail Hfuel. unfold maxDeepLevels in Hd.
  rewrite computeHashAtLevel_prefix in Hp by lia. injection Hp as <-.
  unfold bucketFiller in Hmiss. cbn [RootKey Hash] in Hmiss.
  rewrite Hfail in Hmiss.
  destruct (Get_descent_to rk k w d fuel (reachable_wf w Hreach) ltac:(lia) Hdesc Hfuel)
    as (n & w1 & w2 & HGet & Hwait & _).
  destruct (run_frame_error rk k (length (frames w)) _ zero_Bucket e n Hmiss)
    as [Hres _].
  rewrite Hres in Hwait. by eexists _, w1, w2.
Qed.

End EngineExtras.

(** ** The further properties at concrete inputs *)

Lemma computeHashAtLevel_compose_witness :
  exists p,
    computeHashAtLevel 0x0102030405060708 3 = Some p
    /\ computeHashAtLevel p 5 = computeHashAtLevel 0x0102030405060708 (Z.min 3 5)
    /\ computeHashAtLevel p 3 = Some p.
Proof. apply (computeHashAtLevel_compose 0x0102030405060708 3 5); lia. Defined.

Lemma computeHashAtLevel_outside_witness :
  (9 < 0 -> computeHashAtLevel 0x0102030405060708 9 = Some 0)
  /\ (9 = 8 -> computeHashAtLevel 0x0102030405060708 9 = Some 0x0102030405060708)
  /\ (8 < 9 -> computeHashAtLevel 0x0102030405060708 9 = None).
Proof.
  apply (computeHashAtLevel_outside 0x0102030405060708 9).
  - unfold is_uint64. lia.
  - lia.
Defined.

Lemma computeBitOffsetAtNextLevel_outside_witness :
  (-1 < 0 -> computeBitOffsetAtNextLevel 0x0102030405060708 (-1) = Some 0)
  /\ (8 <= -1 -> computeBitOffsetAtNextLevel 0x0102030405060708 (-1) = None).
Proof.
  apply (computeBitOffsetAtNextLevel_outside 0x0102030405060708 (-1)).
  - unfold is_uint64. lia.
  - lia.
Defined.

Lemma hash_from_offsets_witness : 0x0102030405060708 = 0x0102030405060708.
Proof.
  apply (hash_from_offsets 0x0102030405060708 0x0102030405060708).
  - unfold is_uint64. lia.
  - unfold is_uint64. lia.
  - intros d Hd. reflexivity.
Defined.

Lemma shared_prefix_shares_path_witness :
  (forall d, 0 <= d <= 5 ->
     computeHashAtLevel 0x0102030405060708 d
     = computeHashAtLevel 0x0102030405ffffff d)
  /\ (forall d, 0 <= d < 5 ->
        computeBitOffsetAtNextLevel 0x0102030405060708 d
        = computeBitOffsetAtNextLevel 0x0102030405ffffff d).
Proof.
  apply (shared_prefix_shares_path 0x0102030405060708 0x0102030405ffffff 5).
  - lia.
  - vm_compute. reflexivity.
Defined.

Lemma BucketKey_String_ignores_low_bytes_witness :
  BucketKey_String id (mkBucketKey "user:7" 0x0102030405060708 2)
  = BucketKey_String id (mkBucketKey "user:7" 0x0102000000000000 2).
Proof.
  apply (BucketKey_String_ignores_low_bytes id "user:7" 0x0102030405060708 2
           0x0102000000000000).
  - vm_compute. reflexivity.
  - lia.
Defined.

Lemma child_key_extends_parent_key_witness :
  exists s,
    BucketKey_String id (mkBucketKey "user:7" 0x0102000000000000 2) = Some s
    /\ BucketKey_String id (mkBucketKey "user:7" 0x0102030000000000 (2 + 1))
       = Some (s +:+ EncodeToString [3]).
Proof.
  apply (child_key_extends_parent_key id "user:7" 0x0102030405060708 2
           0x0102000000000000 0x0102030000000000 3).
  - lia.
  - vm_compute. reflexivity.
  - vm_compute. reflexivity.
  - vm_compute. reflexivity.
Defined.

Lemma BucketKey_String_injective_witness :
  mkBucketKey "user:7" 0x0102000000000000 2
  = mkBucketKey "user:7" 0x0102000000000000 2.
Proof.
  apply (BucketKey_String_injective id
           (mkBucketKey "user:7" 0x0102000000000000 2)
           (mkBucketKey "user:7" 0x0102000000000000 2)).
  - reflexivity.
  - cbn. lia.
  - cbn. lia.
  - unfold is_uint64. cbn. lia.
  - unfold is_uint64. cbn. lia.
  - vm_compute. reflexivity.
  - vm_compute. reflexivity.
  - reflexivity.
Defined.

Lemma bucketFiller_zero_branch_witness :
  bucketFiller demo_filler demo_unmarshaler
    (mkBucketKey "user:7" 0x0100000000000000 1)
  = bucketFiller demo_filler demo_unmarshaler
      (mkBucketKey "user:7" 0x0100000000000000 (1 + 1)).
Proof.
  apply (bucketFiller_zero_branch demo_filler demo_unmarshaler "user:7"
           0x0100030405060708 1 0x0100000000000000 0x0100000000000000).
  - lia.
  - vm_compute. reflexivity.
  - vm_compute. reflexivity.
  - vm_compute. reflexivity.
Defined.

Lemma Get_outcome_exclusive_witness :
  exists id w1,
    Get "any" (KNum 7) new_world = Ok id w1
    /\ Get_wait 5 id w1 <> OutOfFuel
    /\ (forall (r : Null (any_key * string)) e w2,
          Get_wait 5 id w1 = Ok (r, e) w2 ->
          (e = None /\ Valid r = true
           /\ Key_eq (getKey (Data r)) (KNum 7) = Some true)
          \/ (e = None /\ r = mkNull false zeroT)
          \/ (exists x, e = Some x /\ r = mkNull false zeroT))
    /\ (StrictKey any_key -> exists out w2, Get_wait 5 id w1 = Ok out w2).
Proof.
  apply (Get_outcome_exclusive "any" (KNum 7) new_world 5).
  - apply reach_new.
  - lia.
Defined.

Lemma Get_fetches_bounded_witness :
  exists id w1 w2 out (n : nat),
    Get "split" "alice" new_world = Ok id w1
    /\ Get_wait 5 id w1 = Ok out w2
    /\ (n <= 4)%nat
    /\ fetches (events_of id (trace w2)) = fetches_to "split" (Key_Hash "alice") n
    /\ (1 <= length (fetches (events_of id (trace w2)))
           <= Z.to_nat maxDeepLevels)%nat.
Proof.
  apply (Get_fetches_bounded "split" "alice" new_world 5).
  - apply reach_new.
  - lia.
Defined.

Lemma Get_terminal_fetches_witness :
  exists id w1 w2 out,
    Get "split" "alice" new_world = Ok id w1
    /\ Get_wait 5 id w1 = Ok out w2
    /\ fetches (events_of id (trace w2)) = fetches_to "split" (Key_Hash "alice") 1
    /\ length (fetches (events_of id (trace w2))) = 2%nat.
Proof.
  apply (Get_terminal_fetches "split" "alice" new_world 1
           (mkBucket [("alice", 5)] no_bits) 5).
  - apply reach_new.
  - unfold maxDeepLevels. lia.
  - vm_compute. reflexivity.
  - vm_compute. reflexivity.
  - vm_compute. reflexivity.
  - lia.
Defined.

Lemma Get_result_session_independent_witness :
  exists id w1 w2 id' w1' w2' out,
    Get "split" "alice" demo_queued_world = Ok id w1
    /\ Get_wait 5 id w1 = Ok out w2
    /\ Get "split" "alice" new_world = Ok id' w1'
    /\ Get_wait 7 id' w1' = Ok out w2'.
Proof.
  apply (Get_result_session_independent "split" "alice" demo_queued_world 5 7).
  - apply demo_queued_world_reachable.
  - lia.
  - lia.
Defined.

Lemma batched_Gets_keep_their_results_witness :
  exists id1 w1 id2 w2 w3 out1 out2 i1 u1 u2 i2 v1 v2,
    Get "split" "alice" new_world = Ok id1 w1
    /\ Get "broken" "bob" w1 = Ok id2 w2
    /\ Get_wait 5 id1 w2 = Ok out1 w3
    /\ Get_wait 5 id2 w3 = Ok out2 w3
    /\ Get "split" "alice" new_world = Ok i1 u1
    /\ Get_wait 5 i1 u1 = Ok out1 u2
    /\ Get "broken" "bob" new_world = Ok i2 v1
    /\ Get_wait 5 i2 v1 = Ok out2 v2.
Proof.
  apply (batched_Gets_keep_their_results "split" "alice" "broken" "bob" new_world 5).
  - apply reach_new.
  - lia.
Defined.

Lemma Get_wait_idempotent_witness :
  exists id w1 w2 out,
    Get "shallow" "bob" new_world = Ok id w1
    /\ Get_wait 5 id w1 = Ok out w2
    /\ Get_wait 0 id w2 = Ok out w2.
Proof.
  apply (Get_wait_idempotent "shallow" "bob" new_world 5 0).
  - apply reach_new.
  - lia.
Defined.

Lemma resolved_result_is_stable_witness :
  exists id w1 w2 out id' w3 w4 out',
    Get "shallow" "bob" new_world = Ok id w1
    /\ Get_wait 5 id w1 = Ok out w2
    /\ Get "deep" "alice" w2 = Ok id' w3
    /\ Get_wait 5 id' w3 = Ok out' w4
    /\ Get_wait 1 id w4 = Ok out w4.
Proof.
  apply (resolved_result_is_stable "shallow" "bob" "deep" "alice" new_world 5 5 1).
  - apply reach_new.
  - lia.
  - lia.
Defined.

Lemma drain_round_trips_bounded_witness :
  (length (round_trips (trace demo_deep_world))
   <= length (round_trips (trace demo_queued_world)) + Z.to_nat maxDeepLevels)%nat.
Proof.
  apply (drain_round_trips_bounded demo_queued_world 5 demo_deep_world).
  - apply demo_queued_world_reachable.
  - vm_compute. reflexivity.
Defined.

Lemma Get_same_prefix_same_path_witness :
  exists id1 w1 w2 r1 e1 id2 w1' w2' r2 e2,
    Get "nums" 0x0102030405060708 new_world = Ok id1 w1
    /\ Get_wait 5 id1 w1 = Ok (r1, e1) w2
    /\ Get "nums" 0x0102030405ffffff new_world = Ok id2 w1'
    /\ Get_wait 5 id2 w1' = Ok (r2, e2) w2'
    /\ e1 = e2
    /\ fetches (events_of id1 (trace w2)) = fetches (events_of id2 (trace w2')).
Proof.
  apply (Get_same_prefix_same_path "nums" 0x0102030405060708 0x0102030405ffffff
           new_world new_world 5).
  - apply reach_new.
  - apply reach_new.
  - lia.
  - vm_compute. reflexivity.
Defined.

Example num_colliding_keys :
  exists w1 w2 w1' w2',
    Get "nums" 0x0102030405060708 new_world = Ok 0%nat w1
    /\ Get_wait 5 0 w1 = Ok (mkNull true (0x0102030405060708, "a"), None) w2
    /\ Get "nums" 0x0102030405ffffff new_world = Ok 0%nat w1'
    /\ Get_wait 5 0 w1' = Ok (mkNull true (0x0102030405ffffff, "b"), None) w2'.
Proof.
  eexists _, _, _, _.
  split; [vm_compute; reflexivity|].
  split; [vm_compute; reflexivity|].
  split; [vm_compute; reflexivity|].
  vm_compute. reflexivity.
Qed.

Lemma Get_filler_error_witness :
  exists id w1 w2,
    Get "broken" "alice" new_world = Ok id w1
    /\ Get_wait 5 id w1 = Ok (mkNull false zeroT, Some (ErrOther "timeout")) w2.
Proof.
  apply (Get_filler_error demo_filler demo_unmarshaler "broken" "alice"
           new_world 1 0x0100000000000000 (ErrOther "timeout") 5).
  - apply reach_new.
  - unfold maxDeepLevels. lia.
  - vm_compute. reflexivity.
  - vm_compute. reflexivity.
  - vm_compute. reflexivity.
  - reflexivity.
  - lia.
Defined.


Example any_queued_world_panics : Execute 5 any_queued_world = Panic.
Proof. vm_compute. reflexivity. Qed.

